(** * MemoryGame: a shallow embedding of the memory-matching game component

    The component is a React function component.  Its ten [useState] cells
    form one record ([Render]: the values a render sees and every closure
    created by that render captures), its [setTimeout] callbacks are kept
    as data until they fire, and its event handlers are functions from
    states to states.

    Numbers.  The counters of the component ([matches], [timeLeft],
    [score], card ids) hold integers far below 2^53, on which the
    additions, subtractions and products of JavaScript are exact: they
    are integers here.  The one computation that leaves the integers,
    the time bonus [(timeLeft / time) * baseScore * matches], is carried
    out in IEEE-754 binary64 with round-to-nearest-even, operation by
    operation, as the engine does.

    The table of best scores.  The mount effect hands the value of
    [JSON.parse] to [setBestScores] unchanged ([loadBestScores]).  The
    cell [bestScores] is typed [Score[]] in the component and is a list
    of [Score] here: the states of this development are those in which
    the cell holds an array of objects that have the properties of a
    [Score] and no other, each with its properties in their own order
    ([Ready]).  When the stored text parses to another value the
    component holds that value all the same; [mount] records it
    ([Untyped]) and the development follows it no further. *)

From Stdlib Require Import ZArith NArith List Bool Lia Arith String Ascii.
From Stdlib Require Import Sorting.Permutation.
From Stdlib Require Import Floats.SpecFloat.
From Stdlib Require DecimalPos DecimalFacts.
Import ListNotations.

Set Implicit Arguments.

(* ================================================================== *)
(** ** Types of the component *)

Inductive GameMode := normal | chrono.
Inductive Difficulty := facile | moyen | difficile | extreme.

(** The six icon components imported from the icon library. *)
Inductive Icon := Heart | Star | Sun | Moon | Cloud | Flower2.

Record MemoryCard := mkCard {
  id : nat;
  icon : Icon;
  isMatched : bool;
  color : string
}.

(** The properties of a [Score] object. *)
Inductive Field := f_mode | f_difficulty | f_score | f_time.

(** A [Score] object.  A JavaScript object keeps its properties in the
    order of their creation, which [JSON.stringify] follows: [s_keys]
    lists, in that order, the properties whose value is defined. *)
Record Score := scoreObject {
  s_mode : GameMode;
  s_difficulty : Difficulty;
  s_score : Z;
  s_time : option Z;         (* [time?: number]; [None] is [undefined] *)
  s_keys : list Field
}.

(** The properties of the object literal
    [{ mode, difficulty, score: ..., time: ... }], [time] among them
    when it is defined. *)
Definition literalKeys (time : option Z) : list Field :=
  [f_mode; f_difficulty; f_score]
  ++ match time with Some _ => [f_time] | None => [] end.

Definition mkScore (m : GameMode) (d : Difficulty) (score : Z) (time : option Z) : Score :=
  scoreObject m d score time (literalKeys time).

Inductive GameState := setup | preview | playing | finished.

Definition GameMode_eqb (a b : GameMode) : bool :=
  match a, b with
  | normal, normal | chrono, chrono => true
  | _, _ => false
  end.

Definition Difficulty_eqb (a b : Difficulty) : bool :=
  match a, b with
  | facile, facile | moyen, moyen | difficile, difficile | extreme, extreme => true
  | _, _ => false
  end.

Definition Icon_eqb (a b : Icon) : bool :=
  match a, b with
  | Heart, Heart | Star, Star | Sun, Sun | Moon, Moon | Cloud, Cloud
  | Flower2, Flower2 => true
  | _, _ => false
  end.

Definition GameState_eqb (a b : GameState) : bool :=
  match a, b with
  | setup, setup | preview, preview | playing, playing | finished, finished => true
  | _, _ => false
  end.

(* ================================================================== *)
(** ** Constant tables *)

Record Config := mkConfig { pairs : nat; time : Z; baseScore : Z }.

Definition DIFFICULTY_CONFIG (d : Difficulty) : Config :=
  match d with
  | facile => mkConfig 6 120 100
  | moyen => mkConfig 8 90 200
  | difficile => mkConfig 10 60 300
  | extreme => mkConfig 12 45 400
  end.

Definition ICONS : list Icon := [Heart; Star; Sun; Moon; Cloud; Flower2].

Definition COLORS : list string :=
  [ "text-rose-400"; "text-amber-400"; "text-yellow-400";
    "text-purple-400"; "text-sky-400"; "text-emerald-400" ]%string.

(* ================================================================== *)
(** ** createCards *)

(** [cards.sort(() => Math.random() - 0.5)]: sorting with a comparator
    that answers at random rearranges the array in a way that depends on
    the engine and on the random draws.  All that is kept of it is that
    the result is a rearrangement of the argument. *)
Record Shuffle := mkShuffle {
  arrange :> list MemoryCard -> list MemoryCard;
  arrange_perm : forall l, Permutation l (arrange l)
}.

Definition keepOrder : Shuffle := mkShuffle (fun l => l) (@Permutation_refl _).

Definition reverseOrder : Shuffle := mkShuffle (@rev _) (@Permutation_rev _).

(** The two cards pushed by iteration [i] of the loop. *)
Definition pairOf (i : nat) : list MemoryCard :=
  let icon := nth (i mod List.length ICONS) ICONS Heart in
  let color := nth (i mod List.length COLORS) COLORS EmptyString in
  [ mkCard (i * 2) icon false color; mkCard (i * 2 + 1) icon false color ].

(** [for (let i = 0; i < pairs; i++) cards.push(...)], with [n] the
    iterations still to run. *)
Fixpoint pushPairs (n i : nat) (cards : list MemoryCard) : list MemoryCard :=
  match n with
  | O => cards
  | S n' => pushPairs n' (S i) (cards ++ pairOf i)
  end.

Definition createCards (sh : Shuffle) (difficulty : Difficulty) : list MemoryCard :=
  let pairs := pairs (DIFFICULTY_CONFIG difficulty) in
  sh (pushPairs pairs 0 []).

(* ================================================================== *)
(** ** calculateScore *)

Module Num.

(** binary64: 53 bits of precision, exponents below 1024. *)
Definition num := spec_float.

Definition ofZ (z : Z) : num := binary_normalize 53 1024 z 0 false.
Definition div : num -> num -> num := SFdiv 53 1024.
Definition mul : num -> num -> num := SFmul 53 1024.

(** [Math.floor] of a finite number, as an integer.  The quotient of two
    integers below 2^53 by a non-zero time limit and its products with
    such integers are finite; the other numbers do not arise. *)
Definition floor (x : num) : Z :=
  match x with
  | S754_finite s m e =>
      let v := if s then Z.neg m else Z.pos m in
      if (0 <=? e)%Z then (v * 2 ^ e)%Z else (v / 2 ^ (- e))%Z
  | _ => 0%Z
  end.

End Num.

Open Scope Z_scope.

Definition calculateScore (mode : GameMode) (difficulty : Difficulty)
    (matches timeLeft : Z) : Z :=
  let baseScore := baseScore (DIFFICULTY_CONFIG difficulty) in
  let time := time (DIFFICULTY_CONFIG difficulty) in
  let matchScore := matches * baseScore in
  match mode with
  | normal => matchScore
  | chrono =>
      let timeBonus :=
        Num.floor
          (Num.mul (Num.mul (Num.div (Num.ofZ timeLeft) (Num.ofZ time))
                            (Num.ofZ baseScore))
                   (Num.ofZ matches)) in
      matchScore + timeBonus
  end.

(** The formula of the specification read over the rationals: the floor
    of the exact quotient. *)
Definition exactScore (mode : GameMode) (difficulty : Difficulty)
    (matches timeLeft : Z) : Z :=
  let c := DIFFICULTY_CONFIG difficulty in
  match mode with
  | normal => matches * baseScore c
  | chrono => matches * baseScore c + (timeLeft * baseScore c * matches) / time c
  end.

(* ================================================================== *)
(** ** JSON text, as read by [JSON.parse] and written by [JSON.stringify] *)

Module JSON.

(** A JavaScript string is a sequence of UTF-16 code units. *)
Definition text := list N.

Definition lit (s : string) : text := map N_of_ascii (list_ascii_of_string s).

#[local] Set Warnings "-register-all".
Inductive value :=
| Null
| Bool (b : bool)
| Number (m e : Z)                       (* the decimal m * 10^e *)
| String (s : text)
| Array (items : list value)
| Object (members : list (text * value)).

Open Scope N_scope.

Definition isWs (c : N) : bool :=
  (c =? 32) || (c =? 9) || (c =? 10) || (c =? 13).

Definition isDigit (c : N) : bool := (48 <=? c) && (c <=? 57).

Fixpoint skipWs (s : text) : text :=
  match s with
  | c :: r => if isWs c then skipWs r else s
  | [] => []
  end.

(** [strip p s]: the rest of [s] after its prefix [p]. *)
Fixpoint strip (p s : text) : option text :=
  match p, s with
  | [], _ => Some s
  | a :: p', b :: s' => if a =? b then strip p' s' else None
  | _ :: _, [] => None
  end.

(** The longest run of decimal digits at the head of [s]. *)
Fixpoint digits (s : text) : list N * text :=
  match s with
  | c :: r => if isDigit c then let (ds, r') := digits r in (c :: ds, r')
              else ([], s)
  | [] => ([], [])
  end.

Definition natural (ds : list N) : Z :=
  fold_left (fun acc d => (10 * acc + Z.of_N (d - 48))%Z) ds 0%Z.

Definition hexVal (c : N) : option N :=
  if isDigit c then Some (c - 48)
  else if (97 <=? c) && (c <=? 102) then Some (c - 87)
  else if (65 <=? c) && (c <=? 70) then Some (c - 55)
  else None.

Definition hex4 (a b c d : N) : option N :=
  match hexVal a, hexVal b, hexVal c, hexVal d with
  | Some x, Some y, Some z, Some w => Some (((x * 16 + y) * 16 + z) * 16 + w)
  | _, _, _, _ => None
  end.

(** The character an escape letter stands for. *)
Definition unescape (c : N) : option N :=
  if c =? 34 then Some 34            (* quote *)
  else if c =? 92 then Some 92       (* backslash *)
  else if c =? 47 then Some 47       (* slash *)
  else if c =? 98 then Some 8        (* b *)
  else if c =? 102 then Some 12      (* f *)
  else if c =? 110 then Some 10      (* n *)
  else if c =? 114 then Some 13      (* r *)
  else if c =? 116 then Some 9       (* t *)
  else None.

Definition consChar (c : N) (k : option (text * text)) : option (text * text) :=
  match k with
  | Some (cs, r) => Some (c :: cs, r)
  | None => None
  end.

(** The characters of a string literal after its opening quote, and
    the text after its closing quote. *)
Fixpoint chars (s : text) : option (text * text) :=
  match s with
  | [] => None
  | c :: r =>
      if c =? 34 then Some ([], r)
      else if c =? 92 then
        match r with
        | [] => None
        | e :: r' =>
            if e =? 117 then
              match r' with
              | h1 :: h2 :: h3 :: h4 :: r'' =>
                  match hex4 h1 h2 h3 h4 with
                  | Some u => consChar u (chars r'')
                  | None => None
                  end
              | _ => None
              end
            else
              match unescape e with
              | Some u => consChar u (chars r')
              | None => None
              end
        end
      else if c <? 32 then None
      else consChar c (chars r)
  end.

(** A number literal: an optional minus sign; an integer part, either
    the digit 0 alone or a digit from 1 to 9 followed by digits; an
    optional fraction, a dot and at least one digit; an optional
    exponent, the letter e in either case, an optional sign and at
    least one digit. *)
Definition number (s : text) : option (value * text) :=
  let (neg, s1) := match s with
                   | c :: r => if c =? 45 then (true, r) else (false, s)
                   | [] => (false, s)
                   end in
  let (ip, s2) := digits s1 in
  match ip with
  | [] => None
  | d :: ds =>
      if (d =? 48) && negb (match ds with [] => true | _ => false end) then None
      else
        let frac :=
          match s2 with
          | c :: r =>
              if c =? 46 then
                match digits r with
                | ([], _) => None
                | (fs, r') => Some (fs, r')
                end
              else Some ([], s2)
          | [] => Some ([], s2)
          end in
        match frac with
        | None => None
        | Some (fs, s3) =>
            let expo :=
              match s3 with
              | c :: r =>
                  if (c =? 101) || (c =? 69) then
                    let (eneg, r1) :=
                      match r with
                      | g :: r0 => if g =? 45 then (true, r0)
                                   else if g =? 43 then (false, r0)
                                   else (false, r)
                      | [] => (false, r)
                      end in
                    match digits r1 with
                    | ([], _) => None
                    | (es, r2) =>
                        Some (if eneg then Z.opp (natural es) else natural es, r2)
                    end
                  else Some (0%Z, s3)
              | [] => Some (0%Z, s3)
              end in
            match expo with
            | None => None
            | Some (ex, s4) =>
                let m := natural (ip ++ fs) in
                Some (Number (if neg then Z.opp m else m)
                             (ex - Z.of_nat (List.length fs))%Z, s4)
            end
        end
  end.

(** Recursive descent; [fuel] bounds the nesting of calls. *)
Fixpoint parseValue (fuel : nat) (s : text) : option (value * text) :=
  match fuel with
  | O => None
  | S fuel' =>
      match skipWs s with
      | [] => None
      | c :: r =>
          if c =? 34 then
            match chars r with
            | Some (str, r') => Some (String str, r')
            | None => None
            end
          else if c =? 91 then
            match skipWs r with
            | 93 :: r' => Some (Array [], r')
            | _ =>
                match parseElements fuel' r with
                | Some (vs, r') => Some (Array vs, r')
                | None => None
                end
            end
          else if c =? 123 then
            match skipWs r with
            | 125 :: r' => Some (Object [], r')
            | _ =>
                match parseMembers fuel' r with
                | Some (ms, r') => Some (Object ms, r')
                | None => None
                end
            end
          else if (c =? 45) || isDigit c then number (c :: r)
          else
            match strip (lit "null") (c :: r) with
            | Some r' => Some (Null, r')
            | None =>
                match strip (lit "true") (c :: r) with
                | Some r' => Some (Bool true, r')
                | None =>
                    match strip (lit "false") (c :: r) with
                    | Some r' => Some (Bool false, r')
                    | None => None
                    end
                end
            end
      end
  end

with parseElements (fuel : nat) (s : text) : option (list value * text) :=
  match fuel with
  | O => None
  | S fuel' =>
      match parseValue fuel' s with
      | None => None
      | Some (v, r) =>
          match skipWs r with
          | c :: r' =>
              if c =? 93 then Some ([v], r')
              else if c =? 44 then
                match parseElements fuel' r' with
                | Some (vs, r'') => Some (v :: vs, r'')
                | None => None
                end
              else None
          | [] => None
          end
      end
  end

with parseMembers (fuel : nat) (s : text) : option (list (text * value) * text) :=
  match fuel with
  | O => None
  | S fuel' =>
      match skipWs s with
      | c :: r =>
          if c =? 34 then
            match chars r with
            | None => None
            | Some (key, r1) =>
                match skipWs r1 with
                | c1 :: r2 =>
                    if c1 =? 58 then
                      match parseValue fuel' r2 with
                      | None => None
                      | Some (v, r3) =>
                          match skipWs r3 with
                          | c3 :: r4 =>
                              if c3 =? 125 then Some ([(key, v)], r4)
                              else if c3 =? 44 then
                                match parseMembers fuel' r4 with
                                | Some (ms, r5) => Some ((key, v) :: ms, r5)
                                | None => None
                                end
                              else None
                          | [] => None
                          end
                      end
                    else None
                | [] => None
                end
            end
          else None
      | [] => None
      end
  end.

(** [JSON.parse]: [None] is the [SyntaxError] it throws. *)
Definition parse (s : text) : option value :=
  match parseValue (2 * List.length s + 2) s with
  | Some (v, r) => match skipWs r with [] => Some v | _ => None end
  | None => None
  end.

(** Decimal digits of an integer, as [Number.prototype.toString] writes
    them. *)
Fixpoint uintDigits (u : Decimal.uint) : text :=
  match u with
  | Decimal.Nil => []
  | Decimal.D0 u' => 48 :: uintDigits u'
  | Decimal.D1 u' => 49 :: uintDigits u'
  | Decimal.D2 u' => 50 :: uintDigits u'
  | Decimal.D3 u' => 51 :: uintDigits u'
  | Decimal.D4 u' => 52 :: uintDigits u'
  | Decimal.D5 u' => 53 :: uintDigits u'
  | Decimal.D6 u' => 54 :: uintDigits u'
  | Decimal.D7 u' => 55 :: uintDigits u'
  | Decimal.D8 u' => 56 :: uintDigits u'
  | Decimal.D9 u' => 57 :: uintDigits u'
  end.

Definition integer (z : Z) : text :=
  match Z.to_int z with
  | Decimal.Pos u => uintDigits u
  | Decimal.Neg u => 45 :: uintDigits u
  end.

End JSON.

(* ================================================================== *)
(** ** State of the component *)

(** The values of the ten [useState] cells in one render. *)
Record Render := mkRender {
  gameState : GameState;
  mode : GameMode;
  difficulty : Difficulty;
  cards : list MemoryCard;
  flippedIndexes : list nat;
  matches : Z;
  isChecking : bool;
  timeLeft : Z;
  score : Z;
  bestScores : list Score
}.

Definition setGameState (v : GameState) (r : Render) : Render :=
  mkRender v (mode r) (difficulty r) (cards r) (flippedIndexes r) (matches r)
           (isChecking r) (timeLeft r) (score r) (bestScores r).
Definition setMode (v : GameMode) (r : Render) : Render :=
  mkRender (gameState r) v (difficulty r) (cards r) (flippedIndexes r) (matches r)
           (isChecking r) (timeLeft r) (score r) (bestScores r).
Definition setDifficulty (v : Difficulty) (r : Render) : Render :=
  mkRender (gameState r) (mode r) v (cards r) (flippedIndexes r) (matches r)
           (isChecking r) (timeLeft r) (score r) (bestScores r).
Definition setCards (v : list MemoryCard) (r : Render) : Render :=
  mkRender (gameState r) (mode r) (difficulty r) v (flippedIndexes r) (matches r)
           (isChecking r) (timeLeft r) (score r) (bestScores r).
Definition setFlippedIndexes (v : list nat) (r : Render) : Render :=
  mkRender (gameState r) (mode r) (difficulty r) (cards r) v (matches r)
           (isChecking r) (timeLeft r) (score r) (bestScores r).
Definition setMatches (v : Z) (r : Render) : Render :=
  mkRender (gameState r) (mode r) (difficulty r) (cards r) (flippedIndexes r) v
           (isChecking r) (timeLeft r) (score r) (bestScores r).
Definition setIsChecking (v : bool) (r : Render) : Render :=
  mkRender (gameState r) (mode r) (difficulty r) (cards r) (flippedIndexes r) (matches r)
           v (timeLeft r) (score r) (bestScores r).
Definition setTimeLeft (v : Z) (r : Render) : Render :=
  mkRender (gameState r) (mode r) (difficulty r) (cards r) (flippedIndexes r) (matches r)
           (isChecking r) v (score r) (bestScores r).
Definition setScore (v : Z) (r : Render) : Render :=
  mkRender (gameState r) (mode r) (difficulty r) (cards r) (flippedIndexes r) (matches r)
           (isChecking r) (timeLeft r) v (bestScores r).
Definition setBestScores (v : list Score) (r : Render) : Render :=
  mkRender (gameState r) (mode r) (difficulty r) (cards r) (flippedIndexes r) (matches r)
           (isChecking r) (timeLeft r) (score r) v.

(** A callback handed to [setTimeout] by [handleCardClick] and not yet
    run.  The callback of a matching pair reads [cards] and calls
    [endGame]: both belong to the render in which the card was clicked,
    which the callback therefore carries. *)
Inductive Timeout :=
| MatchTimeout (r : Render) (firstIndex secondIndex : nat)   (* after 500 ms *)
| MismatchTimeout.                                           (* after 1000 ms *)

Record World := mkWorld {
  ui : Render;                       (* the committed state *)
  storage : option JSON.text;        (* localStorage, key "bestScores" *)
  timeouts : list Timeout;           (* pending callbacks of handleCardClick *)
  toasts : list bool                 (* toasts shown, latest first; true: win *)
}.

Definition update (f : Render -> Render) (w : World) : World :=
  mkWorld (f (ui w)) (storage w) (timeouts w) (toasts w).
Definition setItem (v : JSON.text) (w : World) : World :=
  mkWorld (ui w) (Some v) (timeouts w) (toasts w).
Definition setTimeout (t : Timeout) (w : World) : World :=
  mkWorld (ui w) (storage w) (timeouts w ++ [t]) (toasts w).
Definition toast (isWin : bool) (w : World) : World :=
  mkWorld (ui w) (storage w) (timeouts w) (isWin :: toasts w).

Inductive Error := TypeError | SyntaxError.

(** How a handler completes: normally, or by throwing after the updates
    it had already queued. *)
Inductive Completion :=
| Normal (w : World)
| Thrown (e : Error) (w : World).

Definition worldOf (c : Completion) : World :=
  match c with Normal w => w | Thrown _ w => w end.

(* ================================================================== *)
(** ** The persisted table *)

Definition modeName (m : GameMode) : JSON.text :=
  match m with
  | normal => JSON.lit "normal"
  | chrono => JSON.lit "chrono"
  end.

Definition difficultyName (d : Difficulty) : JSON.text :=
  match d with
  | facile => JSON.lit "facile"
  | moyen => JSON.lit "moyen"
  | difficile => JSON.lit "difficile"
  | extreme => JSON.lit "extreme"
  end.

Definition quoted (t : JSON.text) : JSON.text := (34%N :: t) ++ [34%N].

Definition fieldName (f : Field) : JSON.text :=
  match f with
  | f_mode => JSON.lit "mode"
  | f_difficulty => JSON.lit "difficulty"
  | f_score => JSON.lit "score"
  | f_time => JSON.lit "time"
  end.

Fixpoint joinComma (l : list JSON.text) : JSON.text :=
  match l with
  | [] => []
  | [x] => x
  | x :: rest => x ++ JSON.lit "," ++ joinComma rest
  end.

(** What [JSON.stringify] writes for property [f] of [s]: nothing when
    its value is undefined. *)
Definition member (s : Score) (f : Field) : list JSON.text :=
  match f with
  | f_mode => [quoted (fieldName f) ++ JSON.lit ":" ++ quoted (modeName (s_mode s))]
  | f_difficulty =>
      [quoted (fieldName f) ++ JSON.lit ":" ++ quoted (difficultyName (s_difficulty s))]
  | f_score => [quoted (fieldName f) ++ JSON.lit ":" ++ JSON.integer (s_score s)]
  | f_time =>
      match s_time s with
      | Some t => [quoted (fieldName f) ++ JSON.lit ":" ++ JSON.integer t]
      | None => []
      end
  end.

(** [JSON.stringify] of one [Score]: its properties in their order. *)
Definition stringifyScore (s : Score) : JSON.text :=
  JSON.lit "{" ++ joinComma (flat_map (member s) (s_keys s)) ++ JSON.lit "}".

(** [JSON.stringify(newBestScores)]. *)
Definition stringifyBestScores (t : list Score) : JSON.text :=
  JSON.lit "[" ++ joinComma (map stringifyScore t) ++ JSON.lit "]".

Definition text_eqb (a b : JSON.text) : bool :=
  if list_eq_dec N.eq_dec a b then true else false.

Definition modeOfName (t : JSON.text) : option GameMode :=
  if text_eqb t (JSON.lit "normal") then Some normal
  else if text_eqb t (JSON.lit "chrono") then Some chrono
  else None.

Definition difficultyOfName (t : JSON.text) : option Difficulty :=
  if text_eqb t (JSON.lit "facile") then Some facile
  else if text_eqb t (JSON.lit "moyen") then Some moyen
  else if text_eqb t (JSON.lit "difficile") then Some difficile
  else if text_eqb t (JSON.lit "extreme") then Some extreme
  else None.

(** The integer a decimal [m * 10^e] denotes, when it is one that a
    number holds exactly. *)
Definition integerOf (m e : Z) : option Z :=
  let z := if 0 <=? e then Some (m * 10 ^ e)
           else if m mod 10 ^ (- e) =? 0 then Some (m / 10 ^ (- e))
           else None in
  match z with
  | Some v => if Z.abs v <=? 2 ^ 53 then Some v else None
  | None => None
  end.

Definition fieldOfName (k : JSON.text) : option Field :=
  if text_eqb k (JSON.lit "mode") then Some f_mode
  else if text_eqb k (JSON.lit "difficulty") then Some f_difficulty
  else if text_eqb k (JSON.lit "score") then Some f_score
  else if text_eqb k (JSON.lit "time") then Some f_time
  else None.

Definition Field_eqb (a b : Field) : bool :=
  match a, b with
  | f_mode, f_mode | f_difficulty, f_difficulty | f_score, f_score | f_time, f_time => true
  | _, _ => false
  end.

Fixpoint keys_eqb (a b : list Field) : bool :=
  match a, b with
  | [], [] => true
  | x :: a', y :: b' => Field_eqb x y && keys_eqb a' b'
  | _, _ => false
  end.

(** The properties of the object that [JSON.parse] builds from the
    members of an object literal, none of whose names is an array index:
    they are created in the order written, and a name written again
    takes the later value in the place of the earlier one. *)
Fixpoint define (k : JSON.text) (v : JSON.value) (ps : list (JSON.text * JSON.value))
    : list (JSON.text * JSON.value) :=
  match ps with
  | [] => [(k, v)]
  | (k', v') :: rest =>
      if text_eqb k' k then (k', v) :: rest else (k', v') :: define k v rest
  end.

Definition properties (ms : list (JSON.text * JSON.value)) : list (JSON.text * JSON.value) :=
  fold_left (fun ps m => define (fst m) (snd m) ps) ms [].

(** The properties read as fields of a [Score]: [None] when one of them
    has another name. *)
Fixpoint fieldsOf (ps : list (JSON.text * JSON.value)) : option (list (Field * JSON.value)) :=
  match ps with
  | [] => Some []
  | (k, v) :: rest =>
      match fieldOfName k, fieldsOf rest with
      | Some f, Some fs => Some ((f, v) :: fs)
      | _, _ => None
      end
  end.

Fixpoint get (f : Field) (fs : list (Field * JSON.value)) : option JSON.value :=
  match fs with
  | [] => None
  | (g, v) :: rest => if Field_eqb g f then Some v else get f rest
  end.

Fixpoint insertions {A} (x : A) (l : list A) : list (list A) :=
  match l with
  | [] => [[x]]
  | y :: rest => (x :: l) :: map (cons y) (insertions x rest)
  end.

(** The orders in which the elements of [l] can be listed. *)
Fixpoint orders {A} (l : list A) : list (list A) :=
  match l with
  | [] => [[]]
  | x :: rest => flat_map (insertions x) (orders rest)
  end.

(** [keys] lists the properties of a [Score] whose [time] is [time], in
    some order. *)
Definition hasKeys (time : option Z) (keys : list Field) : bool :=
  existsb (keys_eqb keys) (orders (literalKeys time)).

(** A parsed value read at the type [Score]: an object whose properties
    are [mode], [difficulty], [score] and possibly [time], in any order,
    with a name of a mode, a name of a difficulty and integers that a
    number holds exactly. *)
Definition scoreOfJson (v : JSON.value) : option Score :=
  match v with
  | JSON.Object ms =>
      match fieldsOf (properties ms) with
      | None => None
      | Some fs =>
          let keys := map fst fs in
          match get f_mode fs, get f_difficulty fs, get f_score fs with
          | Some (JSON.String m), Some (JSON.String d), Some (JSON.Number sm se) =>
              match modeOfName m, difficultyOfName d, integerOf sm se with
              | Some m', Some d', Some s' =>
                  match get f_time fs with
                  | None =>
                      if hasKeys None keys
                      then Some (scoreObject m' d' s' None keys) else None
                  | Some (JSON.Number tm te) =>
                      match integerOf tm te with
                      | Some t' =>
                          if hasKeys (Some t') keys
                          then Some (scoreObject m' d' s' (Some t') keys) else None
                      | None => None
                      end
                  | Some _ => None
                  end
              | _, _, _ => None
              end
          | _, _, _ => None
          end
      end
  | _ => None
  end.

Fixpoint scoresOfJson (vs : list JSON.value) : option (list Score) :=
  match vs with
  | [] => Some []
  | v :: rest =>
      match scoreOfJson v, scoresOfJson rest with
      | Some s, Some t => Some (s :: t)
      | _, _ => None
      end
  end.

(** A parsed value read at the type [Score[]] of the cell [bestScores]. *)
Definition bestScoresOfJson (v : JSON.value) : option (list Score) :=
  match v with
  | JSON.Array vs => scoresOfJson vs
  | _ => None
  end.

(** The effect that runs once when the component mounts:
    [const storedBestScores = localStorage.getItem("bestScores");
     if (storedBestScores) setBestScores(JSON.parse(storedBestScores))].
    Whatever [JSON.parse] returns goes to [setBestScores] as it is. *)
Inductive Loaded :=
| Skipped                        (* the item is [null] or the empty string, both falsy *)
| Installed (v : JSON.value)     (* [setBestScores(v)] *)
| Threw (e : Error).             (* [JSON.parse] threw, and nothing catches *)

Definition loadBestScores (item : option JSON.text) : Loaded :=
  match item with
  | None => Skipped
  | Some [] => Skipped
  | Some txt =>
      match JSON.parse txt with
      | Some v => Installed v
      | None => Threw SyntaxError
      end
  end.

(** The component once mounted.  The cell [bestScores] of a [Render] is
    a table of [Score] objects, as its type in the component says.
    [Ready]: the value installed is an array of objects that have the
    properties of a [Score] and no other, and the cell holds that table.
    [Untyped v]: the cell holds [v], which is no such array; the
    component goes on with [v], and the states of this development do
    not follow it there. *)
Inductive Mounted :=
| Ready (w : World)
| Crashed (e : Error)
| Untyped (v : JSON.value).

Definition initialRender : Render :=
  mkRender setup normal facile [] [] 0 false 0 0 [].

Definition initialWorld (item : option JSON.text) : World :=
  mkWorld initialRender item [] [].

Definition mount (item : option JSON.text) : Mounted :=
  match loadBestScores item with
  | Skipped => Ready (initialWorld item)
  | Threw e => Crashed e
  | Installed v =>
      match bestScoresOfJson v with
      | Some t => Ready (update (setBestScores t) (initialWorld item))
      | None => Untyped v
      end
  end.

(* ================================================================== *)
(** ** Handlers *)

(** [findIndex]; [None] is the -1 of a failed search. *)
Fixpoint findIndex {A} (p : A -> bool) (l : list A) : option nat :=
  match l with
  | [] => None
  | x :: rest => if p x then Some 0%nat else option_map S (findIndex p rest)
  end.

(** [l[k] = x] on a copy of [l], for [k] inside [l]. *)
Fixpoint assign {A} (k : nat) (x : A) (l : list A) : list A :=
  match l, k with
  | [], _ => []
  | _ :: rest, O => x :: rest
  | y :: rest, S k' => y :: assign k' x rest
  end.

Definition sameKey (m : GameMode) (d : Difficulty) (s : Score) : bool :=
  GameMode_eqb (s_mode s) m && Difficulty_eqb (s_difficulty s) d.

(** The table [endGame] writes, if it writes one. *)
Definition newBest (m : GameMode) (d : Difficulty) (finalScore tl : Z)
    (table : list Score) : option (list Score) :=
  let newBestScores := table in
  let entry := mkScore m d finalScore (match m with chrono => Some tl | normal => None end) in
  match findIndex (sameKey m d) newBestScores with
  | None => Some (newBestScores ++ [entry])
  | Some scoreIndex =>
      match nth_error newBestScores scoreIndex with
      | Some old => if s_score old <? finalScore
                    then Some (assign scoreIndex entry newBestScores)
                    else None
      | None => None
      end
  end.

(** [endGame(isWin)] as created by render [r]: what it reads comes from
    [r], what it sets goes to the current state. *)
Definition endGame (r : Render) (isWin : bool) (w : World) : World :=
  let w1 := update (setGameState finished) w in
  let finalScore := calculateScore (mode r) (difficulty r) (matches r) (timeLeft r) in
  let w2 := update (setScore finalScore) w1 in
  let w3 := match newBest (mode r) (difficulty r) finalScore (timeLeft r) (bestScores r) with
            | Some newBestScores =>
                setItem (stringifyBestScores newBestScores)
                        (update (setBestScores newBestScores) w2)
            | None => w2
            end in
  toast isWin w3.

(** [startGame], the handler of the start button. *)
Definition startGame (sh : Shuffle) (w : World) : World :=
  let r := ui w in
  let newCards := createCards sh (difficulty r) in
  let w := update (setCards newCards) w in
  let w := update (setFlippedIndexes (seq 0 (List.length newCards))) w in
  let w := update (setMatches 0) w in
  let w := update (setIsChecking false) w in
  let w := update (setTimeLeft (match mode r with
                                | chrono => time (DIFFICULTY_CONFIG (difficulty r))
                                | normal => 0
                                end)) w in
  let w := update (setGameState preview) w in
  update (setScore 0) w.

Definition includes (l : list nat) (i : nat) : bool := existsb (Nat.eqb i) l.

(** [cards.map((card, index) => index === firstIndex || index === secondIndex
      ? { ...card, isMatched: true } : card)], [index] counted from [k]. *)
Fixpoint markMatched (k firstIndex secondIndex : nat) (cs : list MemoryCard)
    : list MemoryCard :=
  match cs with
  | [] => []
  | card :: rest =>
      (if (k =? firstIndex)%nat || (k =? secondIndex)%nat
       then mkCard (id card) (icon card) true (color card)
       else card) :: markMatched (S k) firstIndex secondIndex rest
  end.

Definition handleCardClick (clickedIndex : nat) (w : World) : Completion :=
  let r := ui w in
  if isChecking r then Normal w
  else
    match nth_error (cards r) clickedIndex with
    | None => Thrown TypeError w               (* cards[clickedIndex] is undefined *)
    | Some card =>
        if isMatched card
           || includes (flippedIndexes r) clickedIndex
           || (List.length (flippedIndexes r) =? 2)%nat
        then Normal w
        else
          let newFlipped := flippedIndexes r ++ [clickedIndex] in
          let w1 := update (setFlippedIndexes newFlipped) w in
          match newFlipped with
          | [firstIndex; secondIndex] =>
              let w2 := update (setIsChecking true) w1 in
              match nth_error (cards r) firstIndex, nth_error (cards r) secondIndex with
              | Some firstCard, Some secondCard =>
                  if Icon_eqb (icon firstCard) (icon secondCard)
                  then Normal (setTimeout (MatchTimeout r firstIndex secondIndex) w2)
                  else Normal (setTimeout MismatchTimeout w2)
              | _, _ => Thrown TypeError w2
              end
          | _ => Normal w1
          end
    end.

(** [onClick={() => gameState === "playing" && handleCardClick(index)}] *)
Definition onCardClick (index : nat) (w : World) : Completion :=
  match gameState (ui w) with
  | playing => handleCardClick index w
  | _ => Normal w
  end.

(** A pending callback runs.  In the callback of a matching pair the
    updater of [setMatches] receives the current count [m]; the test
    [newMatches === cards.length / 2] holds when twice [newMatches] is
    the length of the captured deck. *)
Definition runTimeout (t : Timeout) (w : World) : World :=
  match t with
  | MatchTimeout r firstIndex secondIndex =>
      let w1 := update (setCards (markMatched 0 firstIndex secondIndex (cards r))) w in
      let w2 := update (setFlippedIndexes []) w1 in
      let m := matches (ui w) in
      let newMatches := m + 1 in
      let w3 := if 2 * newMatches =? Z.of_nat (List.length (cards r))
                then endGame r true w2 else w2 in
      let w4 := update (setMatches newMatches) w3 in
      update (setIsChecking false) w4
  | MismatchTimeout =>
      update (setIsChecking false) (update (setFlippedIndexes []) w)
  end.

(** The effect with dependencies [timeLeft, gameState, mode].  Its first
    two branches arm the preview timeout and the countdown interval, which
    are the events [PreviewTimeout] and [IntervalTick] below; its third
    branch ends a lost game, with the [endGame] of the render the effect
    belongs to. *)
Definition depsChanged (a b : Render) : bool :=
  negb ((timeLeft a =? timeLeft b) && GameState_eqb (gameState a) (gameState b)
        && GameMode_eqb (mode a) (mode b)).

Definition third_branch (r : Render) : bool :=
  negb (GameState_eqb (gameState r) preview)
  && negb (GameState_eqb (gameState r) playing && GameMode_eqb (mode r) chrono
           && (0 <? timeLeft r))
  && ((timeLeft r =? 0) && GameMode_eqb (mode r) chrono
      && GameState_eqb (gameState r) playing).

Definition runEffect (before : Render) (w : World) : World :=
  if depsChanged before (ui w) && third_branch (ui w)
  then endGame (ui w) false w
  else w.

(* ================================================================== *)
(** ** Events *)

Inductive Event :=
| SelectMode (m : GameMode)            (* the mode menu of the setup screen *)
| SelectDifficulty (d : Difficulty)    (* the difficulty menu of the setup screen *)
| PressStart (sh : Shuffle)            (* the start button of the setup screen *)
| PreviewTimeout                       (* 2000 ms after entering preview *)
| IntervalTick                         (* every 1000 ms of a running countdown *)
| CardClick (index : nat)              (* a card of the grid *)
| TimeoutFires (k : nat)               (* the k-th pending callback runs *)
| PressReplay.                         (* the replay button of a finished game *)

Fixpoint removeAt {A} (k : nat) (l : list A) : list A :=
  match l, k with
  | [], _ => []
  | _ :: rest, O => rest
  | x :: rest, S k' => x :: removeAt k' rest
  end.

(** What an event does to the state before effects run; [None] when the
    event cannot occur: the control is not on screen or the timer is not
    armed. *)
Definition handle (e : Event) (w : World) : option World :=
  let r := ui w in
  match e with
  | SelectMode m =>
      if GameState_eqb (gameState r) setup then Some (update (setMode m) w) else None
  | SelectDifficulty d =>
      if GameState_eqb (gameState r) setup then Some (update (setDifficulty d) w) else None
  | PressStart sh =>
      if GameState_eqb (gameState r) setup then Some (startGame sh w) else None
  | PreviewTimeout =>
      if GameState_eqb (gameState r) preview
      then Some (update (setFlippedIndexes []) (update (setGameState playing) w))
      else None
  | IntervalTick =>
      if GameState_eqb (gameState r) playing && GameMode_eqb (mode r) chrono
         && (0 <? timeLeft r)
      then Some (update (setTimeLeft (timeLeft r - 1)) w)
      else None
  | CardClick index =>
      if negb (GameState_eqb (gameState r) setup) && (index <? List.length (cards r))%nat
      then Some (worldOf (onCardClick index w))
      else None
  | TimeoutFires k =>
      match nth_error (timeouts w) k with
      | Some t =>
          Some (runTimeout t (mkWorld (ui w) (storage w) (removeAt k (timeouts w)) (toasts w)))
      | None => None
      end
  | PressReplay =>
      if GameState_eqb (gameState r) finished
      then Some (update (setGameState setup) w)
      else None
  end.

Definition step (e : Event) (w : World) : option World :=
  match handle e w with
  | Some w' => Some (runEffect (ui w) w')
  | None => None
  end.

Fixpoint run (es : list Event) (w : World) : option World :=
  match es with
  | [] => Some w
  | e :: rest =>
      match step e w with
      | Some w' => run rest w'
      | None => None
      end
  end.

(** The states the component can be in, from a mounted state [w0]. *)
Definition reachableFrom (w0 w : World) : Prop :=
  exists es, run es w0 = Some w.

Definition reachable (w : World) : Prop :=
  exists item w0, mount item = Ready w0 /\ reachableFrom w0 w.

(* ================================================================== *)
(** ** Vocabulary of the properties *)

Definition countIcon (k : Icon) (l : list MemoryCard) : nat :=
  List.length (filter (fun c => Icon_eqb (icon c) k) l).

(** The icon of iteration [i], and the number of iterations below [n]
    that use icon [k]. *)
Definition iconAt (i : nat) : Icon := nth (i mod List.length ICONS) ICONS Heart.

Definition uses (n : nat) (k : Icon) : nat :=
  List.length (filter (fun i => Icon_eqb (iconAt i) k) (seq 0 n)).

Definition upto (n : Z) : list Z := map Z.of_nat (seq 0 (S (Z.to_nat n))).

(** The relation of the binary64 result to the exact one, as a test. *)
Definition chronoCheck (d : Difficulty) (m t : Z) : bool :=
  let c := DIFFICULTY_CONFIG d in
  let got := calculateScore chrono d m t in
  let exact := exactScore chrono d m t in
  (got =? exact)
  || ((got =? exact - 1) && ((t * baseScore c * m) mod time c =? 0)
      && (0 <? t) && (t <? time c) && (0 <? m)).

(** What a click that is not ignored does to the cells. *)
Definition flipped (index : nat) (r : Render) : Render :=
  let r1 := setFlippedIndexes (flippedIndexes r ++ [index]) r in
  if (List.length (flippedIndexes r) =? 1)%nat then setIsChecking true r1 else r1.

Definition finalScoreOf (r : Render) : Z :=
  calculateScore (mode r) (difficulty r) (matches r) (timeLeft r).

Definition entryOf (r : Render) : Score :=
  mkScore (mode r) (difficulty r) (finalScoreOf r)
          (match mode r with chrono => Some (timeLeft r) | normal => None end).

(** The key of an entry of the table. *)
Definition keyOf (s : Score) : GameMode * Difficulty := (s_mode s, s_difficulty s).




Definition flipInv (w : World) : Prop :=
  let r := ui w in
  Forall (fun i => (i < List.length (cards r))%nat) (flippedIndexes r)
  /\ NoDup (flippedIndexes r)
  /\ (gameState r = preview ->
      flippedIndexes r = seq 0 (List.length (cards r)) \/ flippedIndexes r = [])
  /\ (gameState r <> preview -> (List.length (flippedIndexes r) <= 2)%nat).

Definition previewOfFacile : World :=
  mkWorld (mkRender preview normal facile (createCards keepOrder facile)
                    (seq 0 12) 0 false 0 0 [])
          None [] [].

Definition pairClicks (k : nat) : list Event :=
  [CardClick (2 * k); CardClick (2 * k + 1); TimeoutFires 0].

(** A whole game in normal mode at [facile], the deck in the order of
    its making: each pair is clicked and its callback runs. *)
Definition winningRun : list Event :=
  [PressStart keepOrder; PreviewTimeout] ++ flat_map pairClicks (seq 0 6).

Definition matchedCount (cs : list MemoryCard) : nat :=
  List.length (filter isMatched cs).

(** A chrono game at [facile]: one pair is found, the countdown runs to
    its last second, a second pair is clicked, the countdown ends the
    game before the callback of that pair has run, the player replays
    and starts a new game, and then the callback runs. *)
Definition staleRun : list Event :=
  [SelectMode chrono; PressStart keepOrder; PreviewTimeout]
  ++ pairClicks 0
  ++ repeat IntervalTick 119
  ++ [CardClick 2; CardClick 3; IntervalTick; PressReplay; PressStart keepOrder;
      TimeoutFires 0].

(** A chrono game at [facile]: in its last second the first pair is
    clicked, the countdown ends the game before the callback of that
    pair has run, the player replays and starts a new game, whose deck
    comes out of the shuffle in another order. *)
Definition replayRun : list Event :=
  [SelectMode chrono; PressStart keepOrder; PreviewTimeout]
  ++ repeat IntervalTick 119
  ++ [CardClick 0; CardClick 1; IntervalTick; PressReplay; PressStart reverseOrder].


(** A card that lies in the deck at index [i] and is not matched. *)
Definition faceDown (cs : list MemoryCard) (i : nat) : Prop :=
  exists c, nth_error cs i = Some c /\ isMatched c = false.

(** A pending callback that was scheduled in the game being played: it
    captured the deck as it still is, for the two indexes flipped. *)
Definition timeoutFits (r : Render) (t : Timeout) : Prop :=
  match t with
  | MatchTimeout r' a b => cards r' = cards r /\ flippedIndexes r = [a; b]
  | MismatchTimeout => True
  end.

Definition pairInv (w : World) : Prop :=
  let r := ui w in
  Z.of_nat (matchedCount (cards r)) = 2 * matches r
  /\ Forall (faceDown (cards r)) (flippedIndexes r)
  /\ NoDup (flippedIndexes r)
  /\ (timeouts w = []
      \/ (isChecking r = true /\ gameState r <> preview
          /\ exists t, timeouts w = [t] /\ timeoutFits r t)).

(** A start button pressed while no callback is pending. *)
Definition drained (e : Event) (w : World) : bool :=
  match e with
  | PressStart _ => match timeouts w with [] => true | _ => false end
  | _ => true
  end.

(** Runs in which every game starts with no callback pending. *)
Fixpoint runDrained (es : list Event) (w : World) : option World :=
  match es with
  | [] => Some w
  | e :: rest =>
      if drained e w
      then match step e w with
           | Some w' => runDrained rest w'
           | None => None
           end
      else None
  end.


(** A chrono game at [facile] with three matches, out of time, and a
    best score of 250 on record for that mode and difficulty. *)
Definition outOfTime : World :=
  mkWorld (mkRender playing chrono facile (createCards keepOrder facile) [] 3 false 0 0
                    [mkScore chrono facile 250 (Some 10)])
          None [] [].

(** A normal game at [facile] in which the card at index 0 is flipped. *)
Definition oneFlipped : World :=
  mkWorld (mkRender playing normal facile (createCards keepOrder facile) [0%nat] 0 false
                    0 0 [])
          None [] [].

(** A text that begins with a comma or a closing brace. *)
Definition stops (rest : JSON.text) : Prop :=
  exists c rest', rest = c :: rest' /\ (c = 44 \/ c = 125)%N.

(** A text that a string literal holds as it is. *)
Definition plain (x : JSON.text) : Prop :=
  forall r, JSON.chars (x ++ 34%N :: r) = Some (x, r).

(** The member [JSON.parse] reads where [member] wrote. *)
Definition memberValue (s : Score) (f : Field) : list (JSON.text * JSON.value) :=
  match f with
  | f_mode => [(fieldName f, JSON.String (modeName (s_mode s)))]
  | f_difficulty => [(fieldName f, JSON.String (difficultyName (s_difficulty s)))]
  | f_score => [(fieldName f, JSON.Number (s_score s) 0)]
  | f_time =>
      match s_time s with
      | Some t => [(fieldName f, JSON.Number t 0)]
      | None => []
      end
  end.

(** The value [JSON.parse] builds from the text of one [Score]. *)
Definition jsonOfScore (s : Score) : JSON.value :=
  JSON.Object (flat_map (memberValue s) (s_keys s)).

(** A stored table of one entry, written by hand: the properties in
    another order than the component writes them, with spaces. *)
Definition reorderedTable : JSON.text :=
  JSON.lit "[ {" ++ quoted (JSON.lit "score") ++ JSON.lit ": 700, "
  ++ quoted (JSON.lit "time") ++ JSON.lit ": 12, "
  ++ quoted (JSON.lit "mode") ++ JSON.lit ": " ++ quoted (JSON.lit "chrono") ++ JSON.lit ", "
  ++ quoted (JSON.lit "difficulty") ++ JSON.lit ": " ++ quoted (JSON.lit "moyen")
  ++ JSON.lit " } ]".

(** An entry whose keys are its defined properties, in some order. *)
Definition wellKeyed (s : Score) : Prop := hasKeys (s_time s) (s_keys s) = true.

(** An entry whose numbers are integers that a number holds exactly. *)
Definition safeScore (s : Score) : Prop :=
  Z.abs (s_score s) <= 2 ^ 53
  /\ match s_time s with Some t => Z.abs t <= 2 ^ 53 | None => True end.

(** Between two states: the table and the stored text are the same. *)
Definition sameTable (w w' : World) : Prop :=
  bestScores (ui w') = bestScores (ui w) /\ storage w' = storage w.

(** The stored text is the text of the table of the state. *)
Definition written (w : World) : Prop :=
  storage w = Some (stringifyBestScores (bestScores (ui w))).


(** *** Vocabulary of the further properties *)

Definition colorAt (i : nat) : string := nth (i mod List.length COLORS) COLORS EmptyString.

(** [{ ...card, isMatched: true }] *)
Definition matchedCopy (card : MemoryCard) : MemoryCard :=
  mkCard (id card) (icon card) true (color card).

(** [mode === "chrono" ? DIFFICULTY_CONFIG[difficulty].time : 0] *)
Definition startTime (r : Render) : Z :=
  match mode r with
  | chrono => time (DIFFICULTY_CONFIG (difficulty r))
  | normal => 0
  end.

Definition clockInv (w : World) : Prop :=
  let r := ui w in
  0 <= timeLeft r <= 120
  /\ (gameState r = preview -> timeLeft r = startTime r)
  /\ (gameState r = playing ->
      match mode r with
      | normal => timeLeft r = 0
      | chrono => 1 <= timeLeft r <= time (DIFFICULTY_CONFIG (difficulty r))
      end).

(** The order of chrono scores around one point of the domain, as a test. *)
Definition orderCheck (d : Difficulty) (m t : Z) : bool :=
  let c := DIFFICULTY_CONFIG d in
  let s := calculateScore chrono d m t in
  (m * baseScore c <=? s) && (s <=? 2 * m * baseScore c)
  && ((t =? time c) || (s <=? calculateScore chrono d m (t + 1)))
  && ((m =? Z.of_nat (pairs c)) || (s + baseScore c <=? calculateScore chrono d (m + 1) t)).

(** A property of tables that holds of the table of the state and of
    the tables captured by pending callbacks. *)
Definition timeoutHolds (Q : list Score -> Prop) (t : Timeout) : Prop :=
  match t with
  | MatchTimeout r _ _ => Q (bestScores r)
  | MismatchTimeout => True
  end.

Definition tablesHold (Q : list Score -> Prop) (w : World) : Prop :=
  Q (bestScores (ui w)) /\ Forall (timeoutHolds Q) (timeouts w).

(** An entry records a time exactly when it is an entry of chrono mode. *)
Definition timed (s : Score) : Prop :=
  match s_mode s with
  | chrono => s_time s <> None
  | normal => s_time s = None
  end.

(** [card.isMatched || flippedIndexes.includes(index)]: the test of the
    grid for turning the card at [index] and mounting its icon. *)
Definition faceUp (r : Render) (index : nat) (card : MemoryCard) : bool :=
  isMatched card || includes (flippedIndexes r) index.

(** The indexes of the cards that are face up and not matched. *)
Definition turned (r : Render) : list nat :=
  filter (fun i => match nth_error (cards r) i with
                   | Some card => faceUp r i card && negb (isMatched card)
                   | None => false
                   end)
         (seq 0 (List.length (cards r))).

(** A normal game at [facile] that has just left its preview. *)
Definition playingFacile : World :=
  mkWorld (mkRender playing normal facile (createCards keepOrder facile) [] 0 false 0 0 [])
          None [] [].

(** A chrono game at [facile] with two matches and three seconds left. *)
Definition lastSeconds : World :=
  mkWorld (mkRender playing chrono facile (createCards keepOrder facile) [] 2 false 3 0 [])
          None [] [].

Definition stateAfter (es : list Event) : World :=
  match run es (initialWorld None) with
  | Some w => w
  | None => initialWorld None
  end.

(** The run of a won game short of its last callback. *)
Definition lastPairRun : list Event :=
  [PressStart keepOrder; PreviewTimeout] ++ flat_map pairClicks (seq 0 5)
  ++ [CardClick 10; CardClick 11].

Definition firstFlipRun : list Event :=
  [PressStart keepOrder; PreviewTimeout; CardClick 0].

(* ================================================================== *)
(** * Properties *)

Unset Implicit Arguments.

(** ** The deck *)

Lemma pushPairs_flat_map (n : nat) : forall i acc,
  pushPairs n i acc = acc ++ flat_map pairOf (seq i n).
Proof.
  induction n as [|n IH]; intros i acc; simpl.
  - now rewrite app_nil_r.
  - rewrite IH, <- app_assoc. reflexivity.
Qed.

Lemma ids_of_pairs (n : nat) : forall i,
  map id (flat_map pairOf (seq i n)) = seq (2 * i) (2 * n).
Proof.
  induction n as [|n IH]; intros i.
  - reflexivity.
  - cbn [seq flat_map]. rewrite map_app, IH.
    replace (2 * S n)%nat with (S (S (2 * n))) by lia.
    cbn [seq pairOf map id app].
    replace (i * 2)%nat with (2 * i)%nat by lia.
    replace (2 * i + 1)%nat with (S (2 * i)) by lia.
    replace (2 * S i)%nat with (S (S (2 * i))) by lia.
    reflexivity.
Qed.

Lemma unmatched_pairs (n : nat) : forall i,
  Forall (fun c => isMatched c = false) (flat_map pairOf (seq i n)).
Proof.
  induction n as [|n IH]; intros i; cbn [seq flat_map].
  - constructor.
  - apply Forall_app; split; [|apply IH].
    repeat constructor.
Qed.

Lemma countIcon_app (k : Icon) (a b : list MemoryCard) :
  countIcon k (a ++ b) = (countIcon k a + countIcon k b)%nat.
Proof. unfold countIcon. now rewrite filter_app, length_app. Qed.

Lemma countIcon_pairs (k : Icon) (n : nat) : forall i,
  countIcon k (flat_map pairOf (seq i n))
  = (2 * List.length (filter (fun j => Icon_eqb (iconAt j) k) (seq i n)))%nat.
Proof.
  induction n as [|n IH]; intros i; cbn [seq flat_map filter].
  - reflexivity.
  - rewrite countIcon_app, IH.
    unfold countIcon at 1, pairOf. cbn [filter icon]. fold (iconAt i).
    destruct (Icon_eqb (iconAt i) k); cbn [List.length]; lia.
Qed.

Lemma countIcon_perm (k : Icon) (a b : list MemoryCard) :
  Permutation a b -> countIcon k a = countIcon k b.
Proof.
  intros H. unfold countIcon.
  induction H; cbn [filter]; try congruence.
  - destruct (Icon_eqb (icon x) k); cbn [List.length]; congruence.
  - destruct (Icon_eqb (icon x) k), (Icon_eqb (icon y) k); reflexivity.
Qed.

Lemma createCards_perm (sh : Shuffle) (d : Difficulty) :
  Permutation (flat_map pairOf (seq 0 (pairs (DIFFICULTY_CONFIG d)))) (createCards sh d).
Proof.
  unfold createCards. rewrite pushPairs_flat_map. cbn [app].
  apply arrange_perm.
Qed.

Lemma pairOf_made (i : nat) (c : MemoryCard) :
  In c (pairOf i) ->
  (id c / 2)%nat = i /\ icon c = iconAt i /\ color c = colorAt i /\ isMatched c = false.
Proof.
  unfold pairOf. intros [E|[E|[]]]; subst c; cbn [id icon color isMatched];
    (split; [|repeat split]).
  - apply Nat.div_mul. discriminate.
  - symmetry. apply (Nat.div_unique (i * 2 + 1) 2 i 1); lia.
Qed.

Lemma createCards_In (sh : Shuffle) (d : Difficulty) (c : MemoryCard) :
  In c (createCards sh d) <->
  exists i, (i < pairs (DIFFICULTY_CONFIG d))%nat /\ In c (pairOf i).
Proof.
  split.
  - intros H. apply (Permutation_in _ (Permutation_sym (createCards_perm sh d))) in H.
    apply in_flat_map in H. destruct H as [i [Hi Hc]].
    exists i. split; [apply in_seq in Hi; lia | exact Hc].
  - intros [i [Hi Hc]]. apply (Permutation_in _ (createCards_perm sh d)).
    apply in_flat_map. exists i. split; [apply in_seq; lia | exact Hc].
Qed.

Lemma createCards_ids (sh : Shuffle) (d : Difficulty) :
  Permutation (seq 0 (2 * pairs (DIFFICULTY_CONFIG d))) (map id (createCards sh d)).
Proof.
  change (seq 0 (2 * pairs (DIFFICULTY_CONFIG d)))
    with (seq (2 * 0) (2 * pairs (DIFFICULTY_CONFIG d))).
  rewrite <- ids_of_pairs. apply Permutation_map, createCards_perm.
Qed.

Lemma createCards_length (sh : Shuffle) (d : Difficulty) :
  List.length (createCards sh d) = (2 * pairs (DIFFICULTY_CONFIG d))%nat.
Proof.
  rewrite <- (length_map id), <- (Permutation_length (createCards_ids sh d)).
  apply length_seq.
Qed.

Lemma createCards_unmatched (sh : Shuffle) (d : Difficulty) :
  Forall (fun c => isMatched c = false) (createCards sh d).
Proof.
  eapply Permutation_Forall; [apply createCards_perm | apply unmatched_pairs].
Qed.

Lemma createCards_icons (sh : Shuffle) (d : Difficulty) (k : Icon) :
  countIcon k (createCards sh d) = (2 * uses (pairs (DIFFICULTY_CONFIG d)) k)%nat.
Proof.
  rewrite <- (countIcon_perm k _ _ (createCards_perm sh d)).
  apply countIcon_pairs.
Qed.

(** C1, as the code has it.  For every difficulty and every outcome of
    the shuffle, [createCards] returns twice [pairs] cards, whose ids are
    the numbers below twice [pairs] in some order (no two cards share
    one), none of them matched.  The two cards of iteration [i], with
    ids [2 i] and [2 i + 1], are in the deck and carry entry [i mod 6] of
    the palette of icons and of the palette of colors; every card of the
    deck is one of these.  So icon [k] is carried by twice as many cards
    as there are iterations using it: by two cards each at [facile], and
    by four cards for the icons met twice once [pairs] exceeds six. *)
Theorem createCards_deck (sh : Shuffle) (d : Difficulty) :
  let deck := createCards sh d in
  let n := pairs (DIFFICULTY_CONFIG d) in
  List.length deck = (2 * n)%nat
  /\ Permutation (seq 0 (2 * n)) (map id deck)
  /\ NoDup (map id deck)
  /\ Forall (fun c => isMatched c = false) deck
  /\ (forall i, (i < n)%nat ->
        In (mkCard (2 * i) (iconAt i) false (colorAt i)) deck
        /\ In (mkCard (2 * i + 1) (iconAt i) false (colorAt i)) deck)
  /\ Forall (fun c => (id c / 2 < n)%nat
                      /\ icon c = iconAt (id c / 2) /\ color c = colorAt (id c / 2)) deck
  /\ (forall k, countIcon k deck = (2 * uses n k)%nat)
  /\ (forall k, countIcon k (createCards sh facile) = 2%nat)
  /\ countIcon Heart (createCards sh moyen) = 4%nat.
Proof.
  intros deck n. unfold deck, n.
  split; [apply createCards_length|].
  split; [apply createCards_ids|].
  split; [eapply Permutation_NoDup; [apply createCards_ids | apply seq_NoDup]|].
  split; [apply createCards_unmatched|].
  split; [|split].
  - intros i H. split; apply createCards_In; exists i; (split; [exact H|]);
      unfold pairOf, iconAt, colorAt;
      replace (i * 2)%nat with (2 * i)%nat by lia; cbn [In]; auto.
  - apply Forall_forall. intros c H. apply createCards_In in H.
    destruct H as [i [Hi Hc]].
    destruct (pairOf_made i c Hc) as [E [I [C _]]]. rewrite E. auto.
  - split; [intros k; apply createCards_icons|].
    split.
    + intros k. rewrite createCards_icons. destruct k; reflexivity.
    + rewrite createCards_icons. reflexivity.
Qed.

(** C1 as stated fails: at [moyen] the eight pairs reuse the first two of
    the six icons, so it is not true that every icon appears exactly
    twice in every deck. *)
Lemma createCards_icons_not_all_twice :
  ~ (forall (sh : Shuffle) (d : Difficulty) (k : Icon),
        countIcon k (createCards sh d) = 2%nat).
Proof.
  intros H. specialize (H keepOrder moyen Heart). vm_compute in H. discriminate.
Qed.

(* ------------------------------------------------------------------ *)
(** ** The score *)

(** C9.  In normal mode the score is the number of matches times the
    base score of the difficulty, whatever the time left: two calls that
    differ in the time left only return the same score. *)
Theorem calculateScore_normal (d : Difficulty) (m t1 t2 : Z) :
  calculateScore normal d m t1 = calculateScore normal d m t2
  /\ calculateScore normal d m t1 = m * baseScore (DIFFICULTY_CONFIG d).
Proof. split; reflexivity. Qed.

Lemma upto_In (n z : Z) : 0 <= z <= n -> In z (upto n).
Proof.
  intros H. unfold upto. apply in_map_iff. exists (Z.to_nat z). split.
  - lia.
  - apply in_seq. lia.
Qed.

Lemma forallb_upto (p : Z -> bool) (n z : Z) :
  forallb p (upto n) = true -> 0 <= z <= n -> p z = true.
Proof.
  intros H Hz. rewrite forallb_forall in H. apply H, upto_In, Hz.
Qed.

Lemma chronoCheck_all (d : Difficulty) :
  forallb (fun m => forallb (chronoCheck d m) (upto (time (DIFFICULTY_CONFIG d))))
          (upto (Z.of_nat (pairs (DIFFICULTY_CONFIG d)))) = true.
Proof. destruct d; vm_compute; reflexivity. Qed.

(** C3, as the code has it.  For a number of matches [m] between 0 and
    [pairs] and a time left [t] between 0 and the time limit, the chrono
    score is [m * baseScore] plus the floor of
    [(t / time) * baseScore * m] computed in binary64, each operation
    rounded.  That bonus is the floor of the exact quotient
    [t * baseScore * m / time], or one less; it is one less only when the
    exact quotient is a whole number, [0 < t < time] and [0 < m].  The
    two instances of the specification hold: 1200 at (facile, 6, 120)
    and 300 at (facile, 3, 0). *)
Theorem calculateScore_chrono (d : Difficulty) (m t : Z) :
  0 <= m <= Z.of_nat (pairs (DIFFICULTY_CONFIG d)) ->
  0 <= t <= time (DIFFICULTY_CONFIG d) ->
  let c := DIFFICULTY_CONFIG d in
  let exact := m * baseScore c + (t * baseScore c * m) / time c in
  (calculateScore chrono d m t = exact
   \/ (calculateScore chrono d m t = exact - 1
       /\ (t * baseScore c * m) mod time c = 0
       /\ 0 < t < time c /\ 0 < m))
  /\ calculateScore chrono facile 6 120 = 1200
  /\ calculateScore chrono facile 3 0 = 300.
Proof.
  intros Hm Ht c exact. split; [|split; vm_compute; reflexivity].
  pose proof (chronoCheck_all d) as H.
  apply forallb_upto with (z := m) in H; [|exact Hm].
  apply forallb_upto with (z := t) in H; [|exact Ht].
  unfold chronoCheck in H. fold c in H.
  change (exactScore chrono d m t) with exact in H.
  apply orb_true_iff in H. destruct H as [H|H].
  - left. now apply Z.eqb_eq.
  - right. repeat (apply andb_true_iff in H; destruct H as [H ?]).
    apply Z.eqb_eq in H.
    repeat match goal with
           | K : (_ =? _) = true |- _ => apply Z.eqb_eq in K
           | K : (_ <? _) = true |- _ => apply Z.ltb_lt in K
           end.
    repeat split; assumption.
Qed.

Lemma calculateScore_chrono_witness :
  (calculateScore chrono moyen 6 60 = 6 * 200 + (60 * 200 * 6) / 90
   \/ (calculateScore chrono moyen 6 60 = 6 * 200 + (60 * 200 * 6) / 90 - 1
       /\ (60 * 200 * 6) mod 90 = 0 /\ 0 < 60 < 90 /\ 0 < 6))
  /\ calculateScore chrono facile 6 120 = 1200
  /\ calculateScore chrono facile 3 0 = 300.
Proof.
  apply (calculateScore_chrono moyen 6 60); simpl; lia.
Defined.

(** C3 as stated fails: with a third of the time left and three matches
    at [facile] the exact formula gives 300 + 100, the code 399. *)
Lemma calculateScore_chrono_below_exact :
  calculateScore chrono facile 3 40 = 399
  /\ exactScore chrono facile 3 40 = 400
  /\ ~ (forall d m t, 0 <= t <= time (DIFFICULTY_CONFIG d) ->
          calculateScore chrono d m t
          = m * baseScore (DIFFICULTY_CONFIG d)
            + (t * baseScore (DIFFICULTY_CONFIG d) * m) / time (DIFFICULTY_CONFIG d)).
Proof.
  split; [vm_compute; reflexivity|]. split; [vm_compute; reflexivity|].
  intros H.
  assert (E : 0 <= 40 <= time (DIFFICULTY_CONFIG facile)) by (simpl; lia).
  specialize (H facile 3 40 E). vm_compute in H. discriminate H.
Qed.

(* ------------------------------------------------------------------ *)
(** ** Starting a game *)

Lemma startGame_ui (sh : Shuffle) (w : World) :
  ui (startGame sh w)
  = let r := ui w in
    let deck := createCards sh (difficulty r) in
    mkRender preview (mode r) (difficulty r) deck (seq 0 (List.length deck)) 0 false
             (match mode r with
              | chrono => time (DIFFICULTY_CONFIG (difficulty r))
              | normal => 0
              end)
             0 (bestScores r).
Proof. reflexivity. Qed.

(** C8 fails when a callback of the earlier game is pending.
    [startGame] sets the cells of a fresh game: phase preview, a deck
    newly made (no card matched), every index flipped, no match counted,
    no check in progress, the time of the mode and difficulty, score 0.
    It cancels nothing: the callbacks that [handleCardClick] scheduled
    stay pending.  In [replayRun] the new game begins with its own deck,
    shown whole; then the callback of the pair clicked in the lost game
    runs, and the game in preview holds the deck of the lost game, two
    of its cards matched, one match counted, and no card shown. *)
Theorem startGame_callback_survives :
  (forall sh w,
      ui (startGame sh w)
      = (let r := ui w in
         let deck := createCards sh (difficulty r) in
         mkRender preview (mode r) (difficulty r) deck (seq 0 (List.length deck)) 0 false
                  (match mode r with
                   | chrono => time (DIFFICULTY_CONFIG (difficulty r))
                   | normal => 0
                   end)
                  0 (bestScores r))
      /\ Forall (fun c => isMatched c = false) (cards (ui (startGame sh w)))
      /\ List.length (cards (ui (startGame sh w)))
         = (2 * pairs (DIFFICULTY_CONFIG (difficulty (ui w))))%nat
      /\ timeouts (startGame sh w) = timeouts w)
  /\ exists w1 w2 r,
       run replayRun (initialWorld None) = Some w1
       /\ gameState (ui w1) = preview
       /\ cards (ui w1) = createCards reverseOrder facile
       /\ matchedCount (cards (ui w1)) = 0%nat
       /\ matches (ui w1) = 0
       /\ flippedIndexes (ui w1) = seq 0 12
       /\ timeouts w1 = [MatchTimeout r 0 1]
       /\ cards r = createCards keepOrder facile
       /\ step (TimeoutFires 0) w1 = Some w2
       /\ gameState (ui w2) = preview
       /\ cards (ui w2) = markMatched 0 0 1 (createCards keepOrder facile)
       /\ cards (ui w2) <> cards (ui w1)
       /\ map id (cards (ui w2)) <> map id (cards (ui w1))
       /\ matchedCount (cards (ui w2)) = 2%nat
       /\ matches (ui w2) = 1
       /\ flippedIndexes (ui w2) = [].
Proof.
  split.
  - intros sh w. split; [apply startGame_ui|].
    rewrite startGame_ui. cbv zeta. cbn [cards].
    split; [apply createCards_unmatched|].
    split; [apply createCards_length | reflexivity].
  - eexists. eexists. eexists.
    repeat match goal with |- _ /\ _ => split end;
      try (vm_compute; reflexivity);
      intros H; vm_compute in H; discriminate H.
Qed.

(* ------------------------------------------------------------------ *)
(** ** Clicking a card *)

Lemma includes_In (l : list nat) (i : nat) : includes l i = true <-> In i l.
Proof.
  unfold includes. rewrite existsb_exists. split.
  - intros [x [Hx E]]. apply Nat.eqb_eq in E. now subst.
  - intros H. exists i. split; [exact H | apply Nat.eqb_refl].
Qed.

Lemma handleCardClick_accepts (index : nat) (w : World) (card : MemoryCard) :
  isChecking (ui w) = false ->
  nth_error (cards (ui w)) index = Some card ->
  isMatched card = false ->
  includes (flippedIndexes (ui w)) index = false ->
  (List.length (flippedIndexes (ui w)) =? 2)%nat = false ->
  let w' := worldOf (handleCardClick index w) in
  ui w' = flipped index (ui w)
  /\ storage w' = storage w /\ toasts w' = toasts w
  /\ (timeouts w' = timeouts w
      \/ exists t, timeouts w' = timeouts w ++ [t]
                   /\ List.length (flippedIndexes (ui w)) = 1%nat).
Proof.
  intros Hc Hn Hm Hi Hl. unfold handleCardClick, flipped.
  rewrite Hc, Hn, Hm, Hi, Hl. cbn [orb].
  destruct (flippedIndexes (ui w)) as [|a [|b rest]] eqn:F; cbn [app List.length Nat.eqb].
  - cbn. auto.
  - rewrite Hn. destruct (nth_error (cards (ui w)) a) as [fc|]; cbn [worldOf].
    + destruct (Icon_eqb (icon fc) (icon card)); cbn;
        (split; [reflexivity|split; [reflexivity|split; [reflexivity|right; eauto]]]).
    + cbn. auto.
  - destruct rest as [|c rest']; cbn; auto.
Qed.

Lemma onCardClick_ignored (index : nat) (v : World) :
  gameState (ui v) <> playing
  \/ isChecking (ui v) = true
  \/ (exists card, nth_error (cards (ui v)) index = Some card /\ isMatched card = true)
  \/ In index (flippedIndexes (ui v))
  \/ List.length (flippedIndexes (ui v)) = 2%nat ->
  worldOf (onCardClick index v) = v.
Proof.
  intros H. unfold onCardClick.
  destruct (gameState (ui v)) eqn:G; try reflexivity.
  unfold handleCardClick.
  destruct (isChecking (ui v)) eqn:C; [reflexivity|].
  destruct (nth_error (cards (ui v)) index) as [card|] eqn:N; [|reflexivity].
  destruct H as [H|[H|[[c [Hc Hm]]|[H|H]]]].
  - congruence.
  - discriminate.
  - assert (c = card) by congruence. subst c. rewrite Hm. reflexivity.
  - apply includes_In in H. rewrite H, orb_true_r. reflexivity.
  - rewrite H. cbn [Nat.eqb]. rewrite orb_true_r. reflexivity.
Qed.

Lemma onCardClick_accepted (index : nat) (w : World) :
  gameState (ui w) = playing ->
  isChecking (ui w) = false ->
  (exists card, nth_error (cards (ui w)) index = Some card /\ isMatched card = false) ->
  ~ In index (flippedIndexes (ui w)) ->
  List.length (flippedIndexes (ui w)) <> 2%nat ->
  let w' := worldOf (onCardClick index w) in
  ui w' = flipped index (ui w)
  /\ flippedIndexes (ui w') = flippedIndexes (ui w) ++ [index]
  /\ storage w' = storage w /\ toasts w' = toasts w
  /\ (timeouts w' = timeouts w
      \/ exists t, timeouts w' = timeouts w ++ [t]
                   /\ List.length (flippedIndexes (ui w)) = 1%nat).
Proof.
  intros G C [card [N M]] I L. unfold onCardClick. rewrite G.
  assert (I' : includes (flippedIndexes (ui w)) index = false).
  { destruct (includes (flippedIndexes (ui w)) index) eqn:E; [|reflexivity].
    apply includes_In in E. contradiction. }
  assert (L' : (List.length (flippedIndexes (ui w)) =? 2)%nat = false)
    by (apply Nat.eqb_neq; exact L).
  destruct (handleCardClick_accepts index w card C N M I' L') as [U [S [T O]]].
  repeat split; try assumption.
  rewrite U. unfold flipped.
  destruct (List.length (flippedIndexes (ui w)) =? 1)%nat; reflexivity.
Qed.

Lemma onCardClick_twice (index : nat) (w : World) :
  worldOf (onCardClick index (worldOf (onCardClick index w)))
  = worldOf (onCardClick index w).
Proof.
  destruct (GameState_eqb (gameState (ui w)) playing) eqn:G.
  2:{ rewrite (onCardClick_ignored index w); [apply onCardClick_ignored|];
      left; intros E; rewrite E in G; discriminate. }
  assert (G' : gameState (ui w) = playing)
    by (destruct (gameState (ui w)); try discriminate; reflexivity).
  destruct (isChecking (ui w)) eqn:C.
  { rewrite (onCardClick_ignored index w); [apply onCardClick_ignored|];
    right; left; exact C. }
  destruct (nth_error (cards (ui w)) index) as [card|] eqn:N.
  2:{ assert (E : worldOf (onCardClick index w) = w).
      { unfold onCardClick, handleCardClick. rewrite G', C, N. reflexivity. }
      rewrite E. exact E. }
  destruct (isMatched card) eqn:M.
  { rewrite (onCardClick_ignored index w); [apply onCardClick_ignored|];
    right; right; left; eauto. }
  destruct (includes (flippedIndexes (ui w)) index) eqn:I.
  { apply includes_In in I.
    rewrite (onCardClick_ignored index w); [apply onCardClick_ignored|]; auto. }
  destruct (List.length (flippedIndexes (ui w)) =? 2)%nat eqn:L.
  { apply Nat.eqb_eq in L.
    rewrite (onCardClick_ignored index w); [apply onCardClick_ignored|]; auto 6. }
  apply onCardClick_ignored. right. right. right. left.
  assert (NI : ~ In index (flippedIndexes (ui w))).
  { intros K. apply includes_In in K. congruence. }
  apply Nat.eqb_neq in L.
  destruct (onCardClick_accepted index w G' C (ex_intro _ card (conj N M)) NI L)
    as [_ [F _]].
  rewrite F. apply in_or_app. right. now left.
Qed.

(** C6.  A click on a card goes through the phase guard of [onClick] and
    the guards of [handleCardClick].  The whole state is left as it was
    when the phase is not playing, a check is in progress, the card is
    matched, the index is already flipped or two indexes are flipped.
    Otherwise the click appends the index to [flippedIndexes], enters
    checking when that makes two, schedules at most one callback, and
    changes nothing else.  A click repeated leaves the state of the
    first click, so one index never fills both places. *)
Theorem onCardClick_frame (index : nat) (w : World) :
  let r := ui w in
  (gameState r <> playing
   \/ isChecking r = true
   \/ (exists card, nth_error (cards r) index = Some card /\ isMatched card = true)
   \/ In index (flippedIndexes r)
   \/ List.length (flippedIndexes r) = 2%nat ->
   worldOf (onCardClick index w) = w)
  /\ (gameState r = playing ->
      isChecking r = false ->
      (exists card, nth_error (cards r) index = Some card /\ isMatched card = false) ->
      ~ In index (flippedIndexes r) ->
      List.length (flippedIndexes r) <> 2%nat ->
      let w' := worldOf (onCardClick index w) in
      ui w' = flipped index r
      /\ flippedIndexes (ui w') = flippedIndexes r ++ [index]
      /\ storage w' = storage w /\ toasts w' = toasts w
      /\ (timeouts w' = timeouts w
          \/ exists t, timeouts w' = timeouts w ++ [t]
                       /\ List.length (flippedIndexes r) = 1%nat))
  /\ worldOf (onCardClick index (worldOf (onCardClick index w)))
     = worldOf (onCardClick index w)
  /\ (flippedIndexes r = [] ->
      (List.length (flippedIndexes
         (ui (worldOf (onCardClick index (worldOf (onCardClick index w)))))) <= 1)%nat).
Proof.
  intros r.
  split; [apply onCardClick_ignored|].
  split; [apply onCardClick_accepted|].
  split; [apply onCardClick_twice|].
  intros E. rewrite onCardClick_twice. subst r.
  unfold onCardClick, handleCardClick.
  assert (Z0 : (List.length (flippedIndexes (ui w)) <= 1)%nat) by (rewrite E; cbn; lia).
  destruct (gameState (ui w)); try exact Z0.
  destruct (isChecking (ui w)); [exact Z0|].
  destruct (nth_error (cards (ui w)) index) as [card|]; [|exact Z0].
  rewrite E in *. cbn [includes existsb List.length Nat.eqb orb app].
  rewrite orb_false_r.
  destruct (isMatched card); cbn; rewrite ?E; cbn; lia.
Qed.

Lemma onCardClick_frame_witness :
  flippedIndexes (ui (worldOf (onCardClick 1 oneFlipped))) = [0%nat; 1%nat]
  /\ worldOf (onCardClick 0 oneFlipped) = oneFlipped.
Proof.
  destruct (onCardClick_frame 1 oneFlipped) as [_ [A _]].
  destruct (onCardClick_frame 0 oneFlipped) as [B _].
  split.
  - apply A.
    + reflexivity.
    + reflexivity.
    + eexists. split; reflexivity.
    + cbn. intros [E|[]]. discriminate E.
    + cbn. discriminate.
  - apply B. right. right. right. left. cbn. left. reflexivity.
Defined.

(* ------------------------------------------------------------------ *)
(** ** Runs *)

Lemma reachableFrom_ind (P : World -> Prop) :
  (forall e w w', P w -> step e w = Some w' -> P w') ->
  forall w0 w, P w0 -> reachableFrom w0 w -> P w.
Proof.
  intros Hstep w0 w H0 [es Hrun]. revert w0 H0 Hrun.
  induction es as [|e es IH]; intros w0 H0 Hrun; cbn [run] in Hrun.
  - now inversion Hrun; subst.
  - destruct (step e w0) as [w1|] eqn:S; [|discriminate].
    apply (IH w1); [eapply Hstep; eassumption | exact Hrun].
Qed.

Lemma reachableFrom_refl (w : World) : reachableFrom w w.
Proof. now exists []. Qed.

Lemma reachableFrom_step (e : Event) (w0 w w' : World) :
  reachableFrom w0 w -> step e w = Some w' -> reachableFrom w0 w'.
Proof.
  intros [es H] S. exists (es ++ [e]). revert w0 H.
  induction es as [|x es IH]; intros w0 H; cbn [run app] in *.
  - inversion H; subst. now rewrite S.
  - destruct (step x w0); [now apply IH | discriminate].
Qed.

(* ------------------------------------------------------------------ *)
(** ** Ending a game *)

Lemma endGame_ui (r : Render) (isWin : bool) (w : World) :
  ui (endGame r isWin w)
  = let u := setScore (finalScoreOf r) (setGameState finished (ui w)) in
    match newBest (mode r) (difficulty r) (finalScoreOf r) (timeLeft r) (bestScores r) with
    | Some t => setBestScores t u
    | None => u
    end.
Proof.
  unfold endGame, finalScoreOf.
  destruct (newBest _ _ _ _ _); reflexivity.
Qed.

Lemma endGame_timeouts (r : Render) (isWin : bool) (w : World) :
  timeouts (endGame r isWin w) = timeouts w.
Proof. unfold endGame. destruct (newBest _ _ _ _ _); reflexivity. Qed.

Lemma endGame_cells (r : Render) (isWin : bool) (w : World) :
  let u := ui (endGame r isWin w) in
  gameState u = finished /\ score u = finalScoreOf r
  /\ mode u = mode (ui w) /\ difficulty u = difficulty (ui w)
  /\ cards u = cards (ui w) /\ flippedIndexes u = flippedIndexes (ui w)
  /\ matches u = matches (ui w) /\ isChecking u = isChecking (ui w)
  /\ timeLeft u = timeLeft (ui w).
Proof.
  cbv zeta. rewrite endGame_ui. cbv zeta.
  destruct (newBest _ _ _ _ _); cbn; repeat split; reflexivity.
Qed.

Lemma sameKey_true (m : GameMode) (d : Difficulty) (s : Score) :
  sameKey m d s = true <-> keyOf s = (m, d).
Proof.
  unfold sameKey, keyOf. destruct s as [sm sd ? ?]; cbn.
  destruct sm, m, sd, d; cbn; split; intros H; try discriminate; reflexivity.
Qed.


Lemma findIndex_None {A} (p : A -> bool) (l : list A) :
  findIndex p l = None <-> Forall (fun x => p x = false) l.
Proof.
  induction l as [|x l IH]; cbn.
  - split; [constructor | reflexivity].
  - destruct (p x) eqn:E.
    + split; [discriminate | intros H; inversion H; congruence].
    + destruct (findIndex p l); cbn.
      * split; [discriminate|]. intros H. inversion H; subst.
        apply IH in H3. discriminate.
      * split; [|reflexivity]. intros _. constructor; [exact E | now apply IH].
Qed.

Lemma findIndex_Some {A} (p : A -> bool) (l : list A) (k : nat) :
  findIndex p l = Some k ->
  exists pre x post,
    l = pre ++ x :: post /\ List.length pre = k /\ p x = true
    /\ Forall (fun y => p y = false) pre.
Proof.
  revert k. induction l as [|x l IH]; intros k H; cbn in H; [discriminate|].
  destruct (p x) eqn:E.
  - inversion H; subst. exists [], x, l. repeat split; auto.
  - destruct (findIndex p l) as [j|]; [|discriminate]. cbn in H. inversion H; subst.
    destruct (IH j eq_refl) as [pre [y [post [L [N [Py F]]]]]].
    exists (x :: pre), y, post. subst l. cbn. repeat split; auto.
Qed.

Lemma findIndex_front {A} (p : A -> bool) (pre : list A) (x : A) (post : list A) :
  Forall (fun y => p y = false) pre -> p x = true ->
  findIndex p (pre ++ x :: post) = Some (List.length pre).
Proof.
  induction pre as [|y pre IH]; intros F Px; cbn.
  - now rewrite Px.
  - inversion F; subst. rewrite H1, IH; auto.
Qed.

Lemma assign_middle {A} (pre : list A) (x y : A) (post : list A) :
  assign (List.length pre) y (pre ++ x :: post) = pre ++ y :: post.
Proof. induction pre as [|z pre IH]; cbn; [reflexivity | now rewrite IH]. Qed.

Lemma nth_error_middle {A} (pre : list A) (x : A) (post : list A) :
  nth_error (pre ++ x :: post) (List.length pre) = Some x.
Proof. induction pre as [|z pre IH]; cbn; [reflexivity | exact IH]. Qed.

(** [newBest] by cases on the table. *)
Lemma newBest_absent (m : GameMode) (d : Difficulty) (fs tl : Z) (t : list Score) :
  Forall (fun s => sameKey m d s = false) t ->
  newBest m d fs tl t
  = Some (t ++ [mkScore m d fs (match m with chrono => Some tl | normal => None end)]).
Proof.
  intros F. unfold newBest. apply findIndex_None in F. now rewrite F.
Qed.

Lemma newBest_present (m : GameMode) (d : Difficulty) (fs tl : Z)
    (pre : list Score) (old : Score) (post : list Score) :
  Forall (fun s => sameKey m d s = false) pre -> sameKey m d old = true ->
  newBest m d fs tl (pre ++ old :: post)
  = if s_score old <? fs
    then Some (pre ++ mkScore m d fs (match m with chrono => Some tl | normal => None end)
                   :: post)
    else None.
Proof.
  intros F K. unfold newBest.
  rewrite (findIndex_front _ pre old post F K), nth_error_middle, assign_middle.
  reflexivity.
Qed.




Lemma Forall_removeAt {A} (P : A -> Prop) (k : nat) (l : list A) :
  Forall P l -> Forall P (removeAt k l).
Proof.
  revert k. induction l as [|x l IH]; intros k H; cbn.
  - destruct k; constructor.
  - inversion H; subst. destruct k; [assumption|]. constructor; auto.
Qed.







(* ------------------------------------------------------------------ *)
(** ** The flipped indexes *)

Lemma flipInv_cleared (w : World) :
  flippedIndexes (ui w) = [] -> flipInv w.
Proof.
  intros E. unfold flipInv. rewrite E. repeat split.
  - constructor.
  - constructor.
  - intros _. now right.
  - intros _. cbn. lia.
Qed.

Lemma flipInv_endGame (r : Render) (isWin : bool) (w : World) :
  flipInv w -> (List.length (flippedIndexes (ui w)) <= 2)%nat ->
  flipInv (endGame r isWin w).
Proof.
  intros [F [N [P Q]]] L. unfold flipInv.
  destruct (endGame_cells r isWin w) as [G [_ [_ [_ [C [Fl _]]]]]].
  rewrite G, C, Fl.
  split; [exact F|]. split; [exact N|]. split.
  - intros X. discriminate.
  - intros _. exact L.
Qed.

Lemma flipInv_runEffect (before : Render) (w : World) :
  flipInv w -> flipInv (runEffect before w).
Proof.
  intros H. unfold runEffect.
  destruct (depsChanged before (ui w)); cbn [andb]; [|exact H].
  destruct (third_branch (ui w)) eqn:T; [|exact H].
  apply flipInv_endGame; [exact H|].
  destruct H as [_ [_ [_ Q]]]. apply Q.
  unfold third_branch in T. intros E. rewrite E in T. discriminate.
Qed.

Lemma flipInv_handleCardClick (index : nat) (w : World) :
  gameState (ui w) = playing -> flipInv w -> flipInv (worldOf (handleCardClick index w)).
Proof.
  intros G H.
  destruct (isChecking (ui w)) eqn:C.
  { unfold handleCardClick. now rewrite C. }
  destruct (nth_error (cards (ui w)) index) as [card|] eqn:N.
  2:{ unfold handleCardClick. now rewrite C, N. }
  destruct (isMatched card || includes (flippedIndexes (ui w)) index
            || (List.length (flippedIndexes (ui w)) =? 2)%nat) eqn:B.
  { unfold handleCardClick. now rewrite C, N, B. }
  apply orb_false_iff in B. destruct B as [B L].
  apply orb_false_iff in B. destruct B as [M I].
  destruct (handleCardClick_accepts index w card C N M I L) as [U _].
  destruct H as [F [Nd [_ Q]]].
  assert (Lt : (List.length (flippedIndexes (ui w)) <= 1)%nat).
  { apply Nat.eqb_neq in L.
    assert (gameState (ui w) <> preview) by (rewrite G; discriminate).
    specialize (Q H). lia. }
  assert (Fl : flippedIndexes (flipped index (ui w)) = flippedIndexes (ui w) ++ [index]).
  { unfold flipped. destruct (_ =? 1)%nat; reflexivity. }
  assert (Cd : cards (flipped index (ui w)) = cards (ui w)).
  { unfold flipped. destruct (_ =? 1)%nat; reflexivity. }
  assert (Gs : gameState (flipped index (ui w)) = playing).
  { unfold flipped. destruct (_ =? 1)%nat; exact G. }
  unfold flipInv. rewrite U, Cd, Fl, Gs. repeat split.
  - apply Forall_app. split; [exact F|]. constructor; [|constructor].
    apply nth_error_Some. congruence.
  - apply NoDup_app; [exact Nd | repeat constructor; intros [] | ].
    intros x Hx [E|[]]. subst x. apply includes_In in Hx. congruence.
  - discriminate.
  - intros _. rewrite length_app. cbn. lia.
Qed.

Lemma flipInv_step (e : Event) (w w' : World) :
  flipInv w -> step e w = Some w' -> flipInv w'.
Proof.
  intros K S. unfold step in S.
  destruct (handle e w) as [w1|] eqn:H; [|discriminate].
  inversion S; subst w'. clear S. apply flipInv_runEffect.
  destruct e; cbn [handle] in H.
  - destruct (GameState_eqb (gameState (ui w)) setup); [|discriminate].
    inversion H; subst w1. exact K.
  - destruct (GameState_eqb (gameState (ui w)) setup); [|discriminate].
    inversion H; subst w1. exact K.
  - destruct (GameState_eqb (gameState (ui w)) setup); [|discriminate].
    inversion H; subst w1. unfold flipInv.
    pose proof (startGame_ui sh w) as E. cbv zeta in E. rewrite E. cbn.
    repeat split.
    + apply Forall_forall. intros i Hi. apply in_seq in Hi. lia.
    + apply seq_NoDup.
    + intros _. now left.
    + intros X. now contradiction X.
  - destruct (GameState_eqb (gameState (ui w)) preview); [|discriminate].
    inversion H; subst w1. now apply flipInv_cleared.
  - destruct (GameState_eqb (gameState (ui w)) playing && GameMode_eqb (mode (ui w)) chrono
              && (0 <? timeLeft (ui w))); [|discriminate].
    inversion H; subst w1. exact K.
  - destruct (negb (GameState_eqb (gameState (ui w)) setup)
              && (index <? List.length (cards (ui w)))%nat); [|discriminate].
    inversion H; subst w1. unfold onCardClick.
    destruct (gameState (ui w)) eqn:G; try exact K.
    now apply flipInv_handleCardClick.
  - destruct (nth_error (timeouts w) k) as [t|] eqn:N; [|discriminate].
    inversion H; subst w1. destruct t as [r a b|]; cbn [runTimeout].
    + destruct (2 * _ =? _).
      * assert (X : flipInv (endGame r true
                  (update (setFlippedIndexes [])
                     (update (setCards (markMatched 0 a b (cards r)))
                        (mkWorld (ui w) (storage w) (removeAt k (timeouts w)) (toasts w)))))).
        { apply flipInv_endGame; [now apply flipInv_cleared | cbn; lia]. }
        exact X.
      * now apply flipInv_cleared.
    + now apply flipInv_cleared.
  - destruct (GameState_eqb (gameState (ui w)) finished) eqn:G; [|discriminate].
    inversion H; subst w1. destruct K as [F [Nd [_ Q]]].
    unfold flipInv. cbn. repeat split; try assumption.
    + discriminate.
    + intros _. apply Q. intros E. rewrite E in G. discriminate.
Qed.

Lemma mount_Ready (item : option JSON.text) (w0 : World) :
  mount item = Ready w0 ->
  exists t, w0 = mkWorld (setBestScores t initialRender) item [] [].
Proof.
  unfold mount, loadBestScores, initialWorld. cbn [storage].
  destruct item as [[|c txt]|].
  - intros H. inversion H. now exists [].
  - destruct (JSON.parse (c :: txt)) as [v|]; [|discriminate].
    destruct (bestScoresOfJson v) as [t|]; [|discriminate].
    intros H. inversion H. now exists t.
  - intros H. inversion H. now exists [].
Qed.

(** C7, as the code has it.  In every reachable state the flipped
    indexes are indexes into the deck, none of them twice.  Outside the
    preview phase there are at most two of them.  During the preview
    they are all the indexes of the deck, as [startGame] set them, or
    none. *)
Theorem flippedIndexes_bound (w : World) :
  reachable w ->
  let r := ui w in
  Forall (fun i => (i < List.length (cards r))%nat) (flippedIndexes r)
  /\ NoDup (flippedIndexes r)
  /\ (gameState r = preview ->
      flippedIndexes r = seq 0 (List.length (cards r)) \/ flippedIndexes r = [])
  /\ (gameState r <> preview -> (List.length (flippedIndexes r) <= 2)%nat).
Proof.
  intros [item [w0 [M R]]].
  apply (reachableFrom_ind flipInv) with (w0 := w0); [|..|exact R].
  - intros e v v' K S. eapply flipInv_step; eassumption.
  - destruct (mount_Ready item w0 M) as [t E]. subst w0.
    now apply flipInv_cleared.
Qed.

Lemma previewOfFacile_reachable : reachable previewOfFacile.
Proof.
  exists None, (initialWorld None). split; [reflexivity|].
  exists [PressStart keepOrder]. reflexivity.
Defined.

Lemma flippedIndexes_bound_witness :
  Forall (fun i => (i < 12)%nat) (seq 0 12)
  /\ NoDup (flippedIndexes (ui previewOfFacile))
  /\ (gameState (ui previewOfFacile) = preview ->
      flippedIndexes (ui previewOfFacile) = seq 0 12
      \/ flippedIndexes (ui previewOfFacile) = [])
  /\ (gameState (ui previewOfFacile) <> preview ->
      (List.length (flippedIndexes (ui previewOfFacile)) <= 2)%nat).
Proof.
  exact (flippedIndexes_bound previewOfFacile previewOfFacile_reachable).
Defined.

(** C7 as stated fails: right after the start of a [facile] game the
    twelve indexes of the deck are flipped. *)
Lemma flippedIndexes_preview_twelve :
  reachable previewOfFacile
  /\ List.length (flippedIndexes (ui previewOfFacile)) = 12%nat
  /\ ~ (forall w, reachable w -> (List.length (flippedIndexes (ui w)) <= 2)%nat).
Proof.
  split; [exact previewOfFacile_reachable|]. split; [reflexivity|].
  intros H. specialize (H previewOfFacile previewOfFacile_reachable).
  cbn in H. lia.
Qed.

(* ------------------------------------------------------------------ *)
(** ** The final score *)

(** On the win path the final score is computed from the render in which
    the last card was clicked: its [matches] is the count before the
    pair is added. *)
Lemma runTimeout_win_score (r : Render) (a b : nat) (w : World) :
  2 * (matches (ui w) + 1) = Z.of_nat (List.length (cards r)) ->
  let w' := runTimeout (MatchTimeout r a b) w in
  gameState (ui w') = finished
  /\ matches (ui w') = matches (ui w) + 1
  /\ score (ui w') = calculateScore (mode r) (difficulty r) (matches r) (timeLeft r).
Proof.
  intros E. cbn [runTimeout]. apply Z.eqb_eq in E. rewrite E.
  match goal with
  | |- context [endGame r true ?v] =>
      destruct (endGame_cells r true v) as [G [S _]]; revert G S;
      generalize (endGame r true v)
  end.
  intros v G S. cbn. auto.
Qed.

(** On the loss path the final score is computed from the render whose
    time left is 0, with the current count of matches. *)
Lemma IntervalTick_loss_score (w w' : World) :
  timeLeft (ui w) = 1 ->
  step IntervalTick w = Some w' ->
  gameState (ui w') = finished
  /\ matches (ui w') = matches (ui w)
  /\ score (ui w') = calculateScore (mode (ui w)) (difficulty (ui w)) (matches (ui w)) 0.
Proof.
  intros T S. unfold step in S. cbn [handle] in S.
  destruct (GameState_eqb (gameState (ui w)) playing) eqn:G; [|discriminate].
  destruct (GameMode_eqb (mode (ui w)) chrono) eqn:M; [|discriminate].
  rewrite T in S. cbn in S. unfold runEffect in S. cbn in S.
  unfold depsChanged, third_branch in S. cbn in S.
  rewrite T, G, M in S. cbn in S.
  assert (P : GameState_eqb (gameState (ui w)) preview = false)
    by (destruct (gameState (ui w)); try discriminate; reflexivity).
  rewrite P in S. cbn in S.
  inversion S; subst w'. clear S.
  match goal with
  | |- context [endGame ?r false ?v] =>
      destruct (endGame_cells r false v) as [Gs [Sc [_ [_ [_ [_ [Ma _]]]]]]];
      revert Gs Sc Ma; generalize (endGame r false v)
  end.
  intros v Gs Sc Ma. rewrite Gs, Sc, Ma. cbn. auto.
Qed.

(** C2 fails on the win path.  After the six pairs of a [facile] game
    are found the game is finished with six matches and the win toast,
    and the final score is 500: the score of five matches, where the
    score at the current count of matches and time left is 600. *)
Theorem win_scores_previous_matches :
  exists w,
    run winningRun (initialWorld None) = Some w
    /\ gameState (ui w) = finished
    /\ toasts w = [true]
    /\ matches (ui w) = Z.of_nat (pairs (DIFFICULTY_CONFIG (difficulty (ui w))))
    /\ score (ui w) = 500
    /\ score (ui w) = calculateScore normal facile (matches (ui w) - 1) (timeLeft (ui w))
    /\ calculateScore (mode (ui w)) (difficulty (ui w)) (matches (ui w)) (timeLeft (ui w)) = 600.
Proof.
  eexists. split; [vm_compute; reflexivity|].
  cbn. repeat split; reflexivity.
Qed.

(* ------------------------------------------------------------------ *)
(** ** Matched cards *)

(** C10 fails when a callback outlives its game.  In the new game, still
    in its preview, the deck is the deck of the old game with four cards
    matched, and one match is counted. *)
Theorem stale_timeout_matched_count :
  exists w,
    run staleRun (initialWorld None) = Some w
    /\ gameState (ui w) = preview
    /\ matches (ui w) = 1
    /\ matchedCount (cards (ui w)) = 4%nat
    /\ Z.of_nat (matchedCount (cards (ui w))) <> 2 * matches (ui w).
Proof.
  eexists. split; [vm_compute; reflexivity|].
  cbn. repeat split; try reflexivity. discriminate.
Qed.

(** *** What holds when no callback outlives its game *)

(** Reads the cells of a state built by setters. *)
Ltac cells :=
  cbn [ui update storage timeouts toasts cards flippedIndexes matches isChecking
       gameState mode difficulty timeLeft score bestScores
       setIsChecking setMatches setFlippedIndexes setCards setGameState setMode
       setDifficulty setTimeLeft setScore setBestScores setTimeout setItem toast] in *.

Lemma markMatched_beyond (cs : list MemoryCard) : forall k a b,
  (a < k)%nat -> (b < k)%nat -> markMatched k a b cs = cs.
Proof.
  induction cs as [|c cs IH]; intros k a b Ha Hb; cbn [markMatched].
  - reflexivity.
  - assert (E1 : (k =? a)%nat = false) by (apply Nat.eqb_neq; lia).
    assert (E2 : (k =? b)%nat = false) by (apply Nat.eqb_neq; lia).
    rewrite E1, E2. cbn [orb]. rewrite IH by lia. reflexivity.
Qed.

Lemma matchedCount_cons (c : MemoryCard) (cs : list MemoryCard) :
  matchedCount (c :: cs)
  = ((if isMatched c then 1 else 0) + matchedCount cs)%nat.
Proof. unfold matchedCount. cbn [filter]. destruct (isMatched c); reflexivity. Qed.

(** One of the two indexes lies ahead, the other is behind. *)
Lemma markMatched_one (cs : list MemoryCard) : forall k a j c,
  (a < k)%nat -> nth_error cs j = Some c -> isMatched c = false ->
  matchedCount (markMatched k a (k + j) cs) = S (matchedCount cs)
  /\ matchedCount (markMatched k (k + j) a cs) = S (matchedCount cs).
Proof.
  induction cs as [|x cs IH]; intros k a j c Ha N M.
  - destruct j; discriminate.
  - cbn [markMatched]. rewrite !matchedCount_cons.
    assert (E1 : (k =? a)%nat = false) by (apply Nat.eqb_neq; lia).
    rewrite E1. destruct j as [|j]; cbn [nth_error] in N.
    + inversion N; subst x. rewrite Nat.add_0_r, Nat.eqb_refl. cbn [orb isMatched].
      rewrite M. rewrite !markMatched_beyond by lia. split; reflexivity.
    + assert (E2 : (k =? k + S j)%nat = false) by (apply Nat.eqb_neq; lia).
      rewrite E2. cbn [orb].
      replace (k + S j)%nat with (S k + j)%nat by lia.
      destruct (IH (S k) a j c ltac:(lia) N M) as [I1 I2].
      rewrite I1, I2. split; lia.
Qed.

Lemma markMatched_two (cs : list MemoryCard) : forall k i j ci cj,
  i <> j ->
  nth_error cs i = Some ci -> isMatched ci = false ->
  nth_error cs j = Some cj -> isMatched cj = false ->
  matchedCount (markMatched k (k + i) (k + j) cs) = S (S (matchedCount cs)).
Proof.
  induction cs as [|x cs IH]; intros k i j ci cj D Ni Mi Nj Mj.
  - destruct i; discriminate.
  - cbn [markMatched]. rewrite !matchedCount_cons.
    destruct i as [|i], j as [|j]; cbn [nth_error] in Ni, Nj.
    + contradiction.
    + inversion Ni; subst x. rewrite Nat.add_0_r, Nat.eqb_refl. cbn [orb isMatched].
      rewrite Mi. replace (k + S j)%nat with (S k + j)%nat by lia.
      destruct (markMatched_one cs (S k) k j cj ltac:(lia) Nj Mj) as [I _].
      rewrite I. lia.
    + inversion Nj; subst x. rewrite Nat.add_0_r, Nat.eqb_refl, orb_true_r.
      cbn [isMatched]. rewrite Mj. replace (k + S i)%nat with (S k + i)%nat by lia.
      destruct (markMatched_one cs (S k) k i ci ltac:(lia) Ni Mi) as [_ I].
      rewrite I. lia.
    + assert (E1 : (k =? k + S i)%nat = false) by (apply Nat.eqb_neq; lia).
      assert (E2 : (k =? k + S j)%nat = false) by (apply Nat.eqb_neq; lia).
      rewrite E1, E2. cbn [orb].
      replace (k + S i)%nat with (S k + i)%nat by lia.
      replace (k + S j)%nat with (S k + j)%nat by lia.
      rewrite (IH (S k) i j ci cj); [lia | congruence | assumption..].
Qed.

(** No card is turned back: a matched card stays matched. *)
Lemma markMatched_keeps (cs : list MemoryCard) : forall k a b i c,
  nth_error cs i = Some c -> isMatched c = true ->
  exists c', nth_error (markMatched k a b cs) i = Some c' /\ isMatched c' = true.
Proof.
  induction cs as [|x cs IH]; intros k a b i c N M.
  - destruct i; discriminate.
  - cbn [markMatched]. destruct i as [|i]; cbn [nth_error] in *.
    + inversion N; subst x. destruct ((k =? a)%nat || (k =? b)%nat); eauto.
    + eapply IH; eassumption.
Qed.

Lemma pairInv_endGame (r : Render) (isWin : bool) (w : World) :
  pairInv w -> gameState (ui w) <> preview -> pairInv (endGame r isWin w).
Proof.
  intros [C [F [N T]]] G. unfold pairInv.
  destruct (endGame_cells r isWin w) as [Gs [_ [_ [_ [Cd [Fl [Ma [Ch _]]]]]]]].
  rewrite endGame_timeouts, Gs, Cd, Fl, Ma, Ch.
  repeat split; try assumption.
  destruct T as [T|[Ck [_ [t [T Ft]]]]]; [now left|]. right.
  split; [exact Ck|]. split; [discriminate|]. exists t. split; [exact T|].
  destruct t as [r' a b|]; cbn [timeoutFits] in *; [|constructor].
  now rewrite Cd, Fl.
Qed.

Lemma pairInv_runEffect (before : Render) (w : World) :
  pairInv w -> pairInv (runEffect before w).
Proof.
  intros H. unfold runEffect.
  destruct (depsChanged before (ui w)); cbn [andb]; [|exact H].
  destruct (third_branch (ui w)) eqn:T; [|exact H].
  apply pairInv_endGame; [exact H|].
  unfold third_branch in T. intros E. rewrite E in T. discriminate.
Qed.

Lemma pairInv_handleCardClick (index : nat) (w : World) :
  gameState (ui w) = playing -> pairInv w -> pairInv (worldOf (handleCardClick index w)).
Proof.
  intros G H. unfold handleCardClick.
  destruct (isChecking (ui w)) eqn:C; [exact H|].
  destruct (nth_error (cards (ui w)) index) as [card|] eqn:N; [|exact H].
  destruct (isMatched card) eqn:M; [exact H|].
  destruct (includes (flippedIndexes (ui w)) index) eqn:I; [exact H|].
  destruct (List.length (flippedIndexes (ui w)) =? 2)%nat eqn:L; [exact H|].
  cbn [orb]. destruct H as [Cn [F [Nd T]]].
  assert (T0 : timeouts w = []).
  { destruct T as [T|[X _]]; [exact T | congruence]. }
  assert (F' : Forall (faceDown (cards (ui w))) (flippedIndexes (ui w) ++ [index])).
  { apply Forall_app. split; [exact F|]. constructor; [|constructor]. now exists card. }
  assert (Nd' : NoDup (flippedIndexes (ui w) ++ [index])).
  { apply NoDup_app; [exact Nd | repeat constructor; intros [] | ].
    intros x Hx [E|[]]. subst x. apply includes_In in Hx. congruence. }
  destruct (flippedIndexes (ui w)) as [|a [|b rest]] eqn:Fl; cbn [app] in *.
  - unfold pairInv. cbn. repeat split; auto.
  - rewrite N. inversion F; subst. destruct H1 as [fc [Nf Mf]]. rewrite Nf.
    destruct (Icon_eqb (icon fc) (icon card)); unfold pairInv; cbn;
      rewrite T0; cbn; (repeat split; try assumption); right;
      (split; [reflexivity|]); (split; [rewrite G; discriminate|]);
      eexists; (split; [reflexivity|]); cbn; auto.
  - destruct rest as [|c rest]; [discriminate L|].
    unfold pairInv. cbn. repeat split; auto.
Qed.

Lemma pairInv_runTimeout (t : Timeout) (w : World) :
  pairInv (mkWorld (ui w) (storage w) [t] (toasts w)) ->
  timeouts w = [] ->
  pairInv (runTimeout t w).
Proof.
  intros [C [F [Nd T]]] T0. cbn [ui timeouts] in *.
  destruct T as [T|[Ch [G [t' [E Ft]]]]]; [discriminate|].
  inversion E; subst t'. clear E.
  destruct t as [r a b|]; cbn [runTimeout timeoutFits] in *.
  - destruct Ft as [Cd Fl]. rewrite Fl in F, Nd.
    inversion F as [|? ? [ca [Na Ma]] F1]; subst.
    inversion F1 as [|? ? [cb [Nb Mb]] _]; subst.
    assert (D : a <> b).
    { inversion Nd; subst. intros X. apply H1. now left. }
    assert (K : matchedCount (markMatched 0 a b (cards r))
                = S (S (matchedCount (cards (ui w))))).
    { rewrite Cd. apply (markMatched_two (cards (ui w)) 0 a b ca cb); assumption. }
    set (w2 := update (setFlippedIndexes [])
                 (update (setCards (markMatched 0 a b (cards r))) w)).
    assert (P2 : pairInv (update (setIsChecking false)
                    (update (setMatches (matches (ui w) + 1)) w2))).
    { unfold pairInv, w2. cells. rewrite K, T0.
      repeat split; [lia | constructor | constructor | now left]. }
    destruct (2 * (matches (ui w) + 1) =? Z.of_nat (List.length (cards r))); [|exact P2].
    assert (P3 : pairInv (endGame r true
                   (update (setIsChecking false)
                      (update (setMatches (matches (ui w) + 1)) w2)))).
    { apply pairInv_endGame; [exact P2 | exact G]. }
    unfold pairInv in *.
    destruct (endGame_cells r true w2) as [Gs [_ [_ [_ [Cd2 [Fl2 _]]]]]].
    destruct (endGame_cells r true
                (update (setIsChecking false)
                   (update (setMatches (matches (ui w) + 1)) w2)))
      as [_ [_ [_ [_ [Cd3 [Fl3 [Ma3 _]]]]]]].
    rewrite Cd3, Fl3, Ma3, endGame_timeouts in P3.
    cbn [ui update cards flippedIndexes matches isChecking gameState timeouts
         setIsChecking setMatches] in *.
    rewrite Cd2, Fl2, endGame_timeouts.
    destruct P3 as [Q1 [Q2 [Q3 Q4]]].
    repeat split; try assumption. now left.
  - unfold pairInv. cbn. rewrite T0.
    repeat split; [exact C | constructor | constructor | now left].
Qed.

Lemma pairInv_step (e : Event) (w w' : World) :
  drained e w = true -> pairInv w -> step e w = Some w' -> pairInv w'.
Proof.
  intros Dr K S. unfold step in S.
  destruct (handle e w) as [w1|] eqn:H; [|discriminate].
  inversion S; subst w'. clear S. apply pairInv_runEffect.
  assert (Keep : forall f : Render -> Render,
            cards (f (ui w)) = cards (ui w) ->
            flippedIndexes (f (ui w)) = flippedIndexes (ui w) ->
            matches (f (ui w)) = matches (ui w) ->
            isChecking (f (ui w)) = isChecking (ui w) ->
            gameState (f (ui w)) <> preview ->
            pairInv (update f w)).
  { intros f Cd Fl Ma Ch Gs. destruct K as [C [F [Nd T]]].
    unfold pairInv. cbn [ui update timeouts]. rewrite Cd, Fl, Ma, Ch.
    repeat split; try assumption.
    destruct T as [T|[Ck [_ [t [T Ft]]]]]; [now left|]. right.
    split; [exact Ck|]. split; [exact Gs|]. exists t. split; [exact T|].
    destruct t; cbn [timeoutFits] in *; [|constructor]. now rewrite Cd, Fl. }
  destruct e; cbn [handle] in H.
  - destruct (GameState_eqb (gameState (ui w)) setup) eqn:G; [|discriminate].
    inversion H; subst w1. apply Keep; try reflexivity. cbn.
    destruct (gameState (ui w)); discriminate.
  - destruct (GameState_eqb (gameState (ui w)) setup) eqn:G; [|discriminate].
    inversion H; subst w1. apply Keep; try reflexivity. cbn.
    destruct (gameState (ui w)); discriminate.
  - destruct (GameState_eqb (gameState (ui w)) setup); [|discriminate].
    inversion H; subst w1. cbn [drained] in Dr.
    destruct (timeouts w) eqn:T0; [|discriminate].
    pose proof (startGame_ui sh w) as E. cbv zeta in E.
    pose proof (createCards_unmatched sh (difficulty (ui w))) as U.
    unfold pairInv. rewrite E in *. cbn [cards flippedIndexes matches] in *.
    assert (Z0 : matchedCount (createCards sh (difficulty (ui w))) = 0%nat).
    { unfold matchedCount. clear - U.
      induction U as [|c l Hc _ IH]; cbn; [reflexivity | now rewrite Hc]. }
    rewrite Z0. repeat split.
    + apply Forall_forall. intros i Hi. apply in_seq in Hi.
      destruct (nth_error (createCards sh (difficulty (ui w))) i) as [c|] eqn:N.
      * exists c. split; [exact N|].
        rewrite Forall_forall in U. apply U. eapply nth_error_In; eassumption.
      * apply nth_error_None in N. lia.
    + apply seq_NoDup.
    + left. unfold startGame. cbn. exact T0.
  - destruct (GameState_eqb (gameState (ui w)) preview) eqn:G; [|discriminate].
    inversion H; subst w1. destruct K as [C [F [Nd T]]].
    unfold pairInv. cbn. repeat split; [exact C | constructor | constructor |].
    destruct T as [T|[_ [X _]]]; [now left|].
    destruct (gameState (ui w)); try discriminate. now contradiction X.
  - destruct (GameState_eqb (gameState (ui w)) playing && GameMode_eqb (mode (ui w)) chrono
              && (0 <? timeLeft (ui w))) eqn:G; [|discriminate].
    inversion H; subst w1. apply Keep; try reflexivity. cbn.
    destruct (gameState (ui w)); discriminate.
  - destruct (negb (GameState_eqb (gameState (ui w)) setup)
              && (index <? List.length (cards (ui w)))%nat); [|discriminate].
    inversion H; subst w1. unfold onCardClick.
    destruct (gameState (ui w)) eqn:G; try exact K.
    now apply pairInv_handleCardClick.
  - destruct (nth_error (timeouts w) k) as [t|] eqn:N; [|discriminate].
    inversion H; subst w1.
    destruct K as [C [F [Nd T]]].
    destruct T as [T|[Ch [G [t' [T Ft]]]]].
    { rewrite T in N. destruct k; discriminate. }
    rewrite T in N |- *. destruct k as [|k]; [|destruct k; discriminate].
    inversion N; subst t'. cbn [removeAt].
    apply pairInv_runTimeout; [|reflexivity].
    unfold pairInv. cbn. repeat split; try assumption.
    right. repeat split; try assumption. now exists t.
  - destruct (GameState_eqb (gameState (ui w)) finished) eqn:G; [|discriminate].
    inversion H; subst w1. apply Keep; try reflexivity. cbn. discriminate.
Qed.

(** Along runs in which no callback is pending when a game starts, the
    matched cards are twice the matches counted, in every state. *)
Lemma matched_count_when_drained (es : list Event) : forall w0 w,
  pairInv w0 -> runDrained es w0 = Some w ->
  Z.of_nat (matchedCount (cards (ui w))) = 2 * matches (ui w).
Proof.
  induction es as [|e es IH]; intros w0 w K R; cbn [runDrained] in R.
  - inversion R; subst. apply K.
  - destruct (drained e w0) eqn:D; [|discriminate].
    destruct (step e w0) as [w1|] eqn:S; [|discriminate].
    apply (IH w1 w); [|exact R]. eapply pairInv_step; eassumption.
Qed.

Lemma pairInv_mounted (item : option JSON.text) (w0 : World) :
  mount item = Ready w0 -> pairInv w0.
Proof.
  intros M. destruct (mount_Ready item w0 M) as [t E]. subst w0.
  unfold pairInv. cbn. repeat split; [constructor | constructor | now left].
Qed.

(* ------------------------------------------------------------------ *)
(** ** The persisted table *)

Lemma natural_acc (u : Decimal.uint) : forall acc : positive,
  fold_left (fun a d => 10 * a + Z.of_N (d - 48)) (JSON.uintDigits u) (Z.pos acc)
  = Z.pos (Pos.of_uint_acc u acc).
Proof.
  induction u; intros acc; cbn [JSON.uintDigits fold_left Pos.of_uint_acc];
    try reflexivity;
    match goal with
    | |- fold_left _ _ ?a = Z.pos (Pos.of_uint_acc _ ?p) =>
        replace a with (Z.pos p)
          by (rewrite ?Pos2Z.inj_add, ?Pos2Z.inj_mul; change (Z.pos 10) with 10;
              change (Z.of_N (48 - 48)) with 0; change (Z.of_N (49 - 48)) with 1;
              change (Z.of_N (50 - 48)) with 2; change (Z.of_N (51 - 48)) with 3;
              change (Z.of_N (52 - 48)) with 4; change (Z.of_N (53 - 48)) with 5;
              change (Z.of_N (54 - 48)) with 6; change (Z.of_N (55 - 48)) with 7;
              change (Z.of_N (56 - 48)) with 8; change (Z.of_N (57 - 48)) with 9; lia)
    end; apply IHu.
Qed.

Lemma natural_uint (u : Decimal.uint) :
  JSON.natural (JSON.uintDigits u) = Z.of_N (Pos.of_uint u).
Proof.
  unfold JSON.natural.
  induction u; cbn [JSON.uintDigits fold_left Pos.of_uint]; try reflexivity;
    try (match goal with
         | |- fold_left _ _ ?a = Z.of_N (N.pos (Pos.of_uint_acc _ ?p)) =>
             replace a with (Z.pos p) by (vm_compute; reflexivity)
         end; apply natural_acc).
  exact IHu.
Qed.

Lemma digits_uint (u : Decimal.uint) (rest : JSON.text) :
  stops rest -> JSON.digits (JSON.uintDigits u ++ rest) = (JSON.uintDigits u, rest).
Proof.
  intros [c [rest' [E H]]]. subst rest.
  induction u; cbn [JSON.uintDigits app JSON.digits];
    try (change (JSON.isDigit 48) with true; cbv iota);
    try (rewrite IHu; reflexivity).
  destruct H; subst c; reflexivity.
Qed.

Lemma to_uint_head (p : positive) :
  exists d ds, JSON.uintDigits (Pos.to_uint p) = d :: ds
               /\ (d =? 48)%N = false /\ JSON.isDigit d = true.
Proof.
  pose proof (DecimalPos.Unsigned.to_of (Pos.to_uint p)) as N.
  rewrite DecimalPos.Unsigned.of_to in N. cbn [N.to_uint] in N.
  pose proof (DecimalPos.Unsigned.to_uint_nonzero p) as Z.
  pose proof (DecimalPos.Unsigned.to_uint_nonnil p) as L.
  destruct (Pos.to_uint p) as [|u|u|u|u|u|u|u|u|u|u] eqn:E;
    try (cbn [JSON.uintDigits]; eexists; eexists; repeat split; reflexivity).
  - contradiction.
  - exfalso. assert (D : u = Decimal.Nil \/ u <> Decimal.Nil) by (destruct u; (now left) || (right; discriminate)). destruct D as [X|X].
    + subst u. apply Z. reflexivity.
    + pose proof (DecimalFacts.nb_digits_unorm u X) as B.
      change (Decimal.unorm (Decimal.D0 u)) with (Decimal.unorm u) in N.
      rewrite <- N in B. cbn [Decimal.nb_digits] in B. lia.
Qed.

Lemma number_digits (neg : bool) (p : positive) (rest : JSON.text) :
  stops rest ->
  JSON.number ((if neg then [45%N] else []) ++ JSON.uintDigits (Pos.to_uint p) ++ rest)
  = Some (JSON.Number (if neg then Z.neg p else Z.pos p) 0, rest).
Proof.
  intros S.
  destruct (to_uint_head p) as [d [ds [E [D0 Dd]]]].
  assert (D45 : (d =? 45)%N = false).
  { unfold JSON.isDigit in Dd. apply andb_true_iff in Dd. destruct Dd as [A B].
    apply N.leb_le in A. apply N.eqb_neq. lia. }
  assert (V : JSON.natural (d :: ds) = Z.pos p).
  { rewrite <- E, natural_uint, DecimalPos.Unsigned.of_to. reflexivity. }
  pose proof (digits_uint (Pos.to_uint p) rest S) as G. rewrite E in G.
  destruct S as [c [rest' [R H]]]. subst rest.
  assert (C46 : (c =? 46)%N = false) by (destruct H; subst c; reflexivity).
  assert (Ce : ((c =? 101) || (c =? 69))%N = false) by (destruct H; subst c; reflexivity).
  unfold JSON.number. rewrite E.
  destruct neg; cbn [app].
  - change (45 =? 45)%N with true. cbv iota.
    cbn [app] in G. rewrite G. rewrite D0. cbn [andb].
    rewrite C46, Ce, List.app_nil_r, V. reflexivity.
  - rewrite D45. cbn [app] in G. rewrite G. rewrite D0. cbn [andb].
    rewrite C46, Ce, List.app_nil_r, V. reflexivity.
Qed.

Lemma number_integer (z : Z) (rest : JSON.text) :
  stops rest -> JSON.number (JSON.integer z ++ rest) = Some (JSON.Number z 0, rest).
Proof.
  intros S. destruct z as [|p|p].
  - destruct S as [c [rest' [R H]]]. subst rest.
    destruct H; subst c; reflexivity.
  - apply (number_digits false p rest S).
  - apply (number_digits true p rest S).
Qed.

Lemma integer_head (z : Z) :
  exists d ds, JSON.integer z = d :: ds /\ (d = 45 \/ 48 <= d <= 57)%N.
Proof.
  destruct z as [|p|p].
  - exists 48%N, []. split; [reflexivity|]. right. lia.
  - destruct (to_uint_head p) as [d [ds [E [_ Dd]]]].
    exists d, ds. split; [exact E|]. right.
    unfold JSON.isDigit in Dd. apply andb_true_iff in Dd. destruct Dd as [A B].
    apply N.leb_le in A. apply N.leb_le in B. lia.
  - exists 45%N, (JSON.uintDigits (Pos.to_uint p)). split; [reflexivity|]. now left.
Qed.

Lemma parseValue_integer (fuel : nat) (z : Z) (rest : JSON.text) :
  stops rest ->
  JSON.parseValue (S fuel) (JSON.integer z ++ rest) = Some (JSON.Number z 0, rest).
Proof.
  intros S. pose proof (number_integer z rest S) as Nm.
  destruct (integer_head z) as [d [ds [E H]]]. rewrite E in *.
  cbn [app] in *. cbn [JSON.parseValue JSON.skipWs].
  assert (W : JSON.isWs d = false).
  { unfold JSON.isWs. repeat (apply orb_false_iff; split); apply N.eqb_neq; lia. }
  rewrite W.
  assert (Q : (d =? 34)%N = false) by (apply N.eqb_neq; lia).
  assert (A : (d =? 91)%N = false) by (apply N.eqb_neq; lia).
  assert (O : (d =? 123)%N = false) by (apply N.eqb_neq; lia).
  assert (M : ((d =? 45)%N || JSON.isDigit d) = true).
  { unfold JSON.isDigit. destruct H as [H|H].
    - subst d. reflexivity.
    - apply orb_true_iff. right. apply andb_true_iff. split; apply N.leb_le; lia. }
  rewrite Q, A, O, M. exact Nm.
Qed.

Lemma parseValue_string (fuel : nat) (body rest : JSON.text) :
  plain body ->
  JSON.parseValue (S fuel) (34%N :: body ++ 34%N :: rest) = Some (JSON.String body, rest).
Proof.
  intros P. cbn [JSON.parseValue JSON.skipWs].
  change (JSON.isWs 34) with false. cbv iota.
  change (34 =? 34)%N with true. cbv iota.
  rewrite P. reflexivity.
Qed.

Lemma parseValue_object (fuel : nat) (t : JSON.text) (ms : list (JSON.text * JSON.value))
    (rest : JSON.text) :
  JSON.parseMembers fuel (34%N :: t) = Some (ms, rest) ->
  JSON.parseValue (S fuel) (123%N :: 34%N :: t) = Some (JSON.Object ms, rest).
Proof.
  intros M. cbn [JSON.parseValue JSON.skipWs].
  change (JSON.isWs 123) with false. cbv iota.
  change (123 =? 34)%N with false. change (123 =? 91)%N with false.
  change (123 =? 123)%N with true. cbv iota.
  change (JSON.isWs 34) with false. cbv iota.
  rewrite M. reflexivity.
Qed.

Lemma parseMembers_last (fuel : nat) (key t : JSON.text) (v : JSON.value)
    (rest : JSON.text) :
  plain key ->
  JSON.parseValue fuel t = Some (v, 125%N :: rest) ->
  JSON.parseMembers (S fuel) (34%N :: key ++ 34%N :: 58%N :: t) = Some ([(key, v)], rest).
Proof.
  intros P V. cbn [JSON.parseMembers JSON.skipWs].
  change (JSON.isWs 34) with false. cbv iota.
  change (34 =? 34)%N with true. cbv iota.
  rewrite P. cbn [JSON.skipWs]. change (JSON.isWs 58) with false. cbv iota.
  change (58 =? 58)%N with true. cbv iota.
  rewrite V. cbn [JSON.skipWs]. change (JSON.isWs 125) with false. cbv iota.
  change (125 =? 125)%N with true. cbv iota. reflexivity.
Qed.

Lemma parseMembers_more (fuel : nat) (key t : JSON.text) (v : JSON.value)
    (r : JSON.text) (ms : list (JSON.text * JSON.value)) (rest : JSON.text) :
  plain key ->
  JSON.parseValue fuel t = Some (v, 44%N :: r) ->
  JSON.parseMembers fuel r = Some (ms, rest) ->
  JSON.parseMembers (S fuel) (34%N :: key ++ 34%N :: 58%N :: t) = Some ((key, v) :: ms, rest).
Proof.
  intros P V M. cbn [JSON.parseMembers JSON.skipWs].
  change (JSON.isWs 34) with false. cbv iota.
  change (34 =? 34)%N with true. cbv iota.
  rewrite P. cbn [JSON.skipWs]. change (JSON.isWs 58) with false. cbv iota.
  change (58 =? 58)%N with true. cbv iota.
  rewrite V. cbn [JSON.skipWs]. change (JSON.isWs 44) with false. cbv iota.
  change (44 =? 125)%N with false. change (44 =? 44)%N with true. cbv iota.
  rewrite M. reflexivity.
Qed.

Lemma parseElements_last (fuel : nat) (t : JSON.text) (v : JSON.value) (rest : JSON.text) :
  JSON.parseValue fuel t = Some (v, 93%N :: rest) ->
  JSON.parseElements (S fuel) t = Some ([v], rest).
Proof.
  intros V. cbn [JSON.parseElements]. rewrite V. cbn [JSON.skipWs].
  change (JSON.isWs 93) with false. cbv iota.
  change (93 =? 93)%N with true. cbv iota. reflexivity.
Qed.

Lemma parseElements_more (fuel : nat) (t : JSON.text) (v : JSON.value)
    (r : JSON.text) (vs : list JSON.value) (rest : JSON.text) :
  JSON.parseValue fuel t = Some (v, 44%N :: r) ->
  JSON.parseElements fuel r = Some (vs, rest) ->
  JSON.parseElements (S fuel) t = Some (v :: vs, rest).
Proof.
  intros V E. cbn [JSON.parseElements]. rewrite V. cbn [JSON.skipWs].
  change (JSON.isWs 44) with false. cbv iota.
  change (44 =? 93)%N with false. change (44 =? 44)%N with true. cbv iota.
  rewrite E. reflexivity.
Qed.

Lemma plain_modeName (m : GameMode) : plain (modeName m).
Proof. intros r. destruct m; reflexivity. Qed.

Lemma plain_difficultyName (d : Difficulty) : plain (difficultyName d).
Proof. intros r. destruct d; reflexivity. Qed.

Lemma plain_fieldName (f : Field) : plain (fieldName f).
Proof. intros r. destruct f; reflexivity. Qed.

Lemma keys_eqb_eq (a : list Field) : forall b, keys_eqb a b = true -> a = b.
Proof.
  induction a as [|x a IH]; intros [|y b] H; try discriminate; [reflexivity|].
  cbn in H. apply andb_true_iff in H. destruct H as [X Y].
  rewrite (IH b Y). destruct x, y; try discriminate; reflexivity.
Qed.

(** The keys of a well-keyed entry are its three or four defined
    properties. *)
Lemma wellKeyed_orders (s : Score) :
  wellKeyed s -> In (s_keys s) (orders (literalKeys (s_time s))).
Proof.
  unfold wellKeyed, hasKeys. intros H.
  apply existsb_exists in H. destruct H as [x [I E]].
  apply keys_eqb_eq in E. now rewrite E.
Qed.

Lemma wellKeyed_length (s : Score) :
  wellKeyed s -> (List.length (s_keys s) <= 4)%nat.
Proof.
  intros W. apply wellKeyed_orders in W.
  destruct s as [m d sc tm keys]. cbn [s_keys s_time] in *.
  destruct tm; cbv in W;
    repeat (destruct W as [W|W]; [subst keys; cbn; lia|]); contradiction.
Qed.

Lemma mkScore_wellKeyed (m : GameMode) (d : Difficulty) (sc : Z) (tm : option Z) :
  wellKeyed (mkScore m d sc tm).
Proof. destruct tm; reflexivity. Qed.

(** What is written for a property is read back as its member. *)
Lemma member_parses (s : Score) (f : Field) :
  (member s f = [] /\ memberValue s f = [])
  \/ exists vt val,
       member s f = [34%N :: fieldName f ++ 34%N :: 58%N :: vt]
       /\ memberValue s f = [(fieldName f, val)]
       /\ forall fuel rest, stops rest ->
            JSON.parseValue (S fuel) (vt ++ rest) = Some (val, rest).
Proof.
  destruct f; cbn [member memberValue].
  - right. exists (34%N :: modeName (s_mode s) ++ [34%N]), (JSON.String (modeName (s_mode s))).
    split; [unfold quoted; cbn [app]; rewrite <- !List.app_assoc; reflexivity|].
    split; [reflexivity|]. intros fuel rest _.
    cbn [app]. rewrite <- List.app_assoc. apply parseValue_string, plain_modeName.
  - right. exists (34%N :: difficultyName (s_difficulty s) ++ [34%N]),
             (JSON.String (difficultyName (s_difficulty s))).
    split; [unfold quoted; cbn [app]; rewrite <- !List.app_assoc; reflexivity|].
    split; [reflexivity|]. intros fuel rest _.
    cbn [app]. rewrite <- List.app_assoc. apply parseValue_string, plain_difficultyName.
  - right. exists (JSON.integer (s_score s)), (JSON.Number (s_score s) 0).
    split; [unfold quoted; cbn [app]; rewrite <- !List.app_assoc; reflexivity|].
    split; [reflexivity|]. intros fuel rest St. now apply parseValue_integer.
  - destruct (s_time s) as [t|]; [right | left; split; reflexivity].
    exists (JSON.integer t), (JSON.Number t 0).
    split; [unfold quoted; cbn [app]; rewrite <- !List.app_assoc; reflexivity|].
    split; [reflexivity|]. intros fuel rest St. now apply parseValue_integer.
Qed.

Lemma joinComma_cons (x y : JSON.text) (l : list JSON.text) :
  joinComma (x :: y :: l) = x ++ 44%N :: joinComma (y :: l).
Proof. reflexivity. Qed.

Lemma memberValue_none (s : Score) (ks : list Field) :
  flat_map (member s) ks = [] -> flat_map (memberValue s) ks = [].
Proof.
  induction ks as [|k ks IH]; [reflexivity|]. cbn [flat_map].
  destruct (member_parses s k) as [[M V]|[vt [val [M _]]]]; rewrite M.
  - rewrite V. exact IH.
  - discriminate.
Qed.

Lemma parseMembers_fields (s : Score) (ks : list Field) : forall fuel rest,
  flat_map (member s) ks <> [] ->
  JSON.parseMembers (List.length ks + 1 + fuel)
                    (joinComma (flat_map (member s) ks) ++ 125%N :: rest)
  = Some (flat_map (memberValue s) ks, rest).
Proof.
  induction ks as [|k ks IH]; intros fuel rest N; [now contradiction N|].
  cbn [flat_map] in *.
  destruct (member_parses s k) as [[M V]|[vt [val [M [V P]]]]]; rewrite M, V in *.
  - cbn [app] in *.
    replace (List.length (k :: ks) + 1 + fuel)%nat
      with (List.length ks + 1 + S fuel)%nat by (cbn [List.length]; lia).
    now apply IH.
  - cbn [app] in *.
    change (List.length (k :: ks) + 1 + fuel)%nat with (S (List.length ks + 1 + fuel)).
    destruct (flat_map (member s) ks) as [|y l] eqn:F.
    + rewrite (memberValue_none s ks F).
      cbn [joinComma app]. rewrite <- List.app_assoc. cbn [app].
      apply parseMembers_last; [apply plain_fieldName|].
      replace (List.length ks + 1 + fuel)%nat with (S (List.length ks + fuel)) by lia.
      apply P. eexists; eexists; split; [reflexivity | now right].
    + rewrite joinComma_cons. cbn [app]. rewrite <- !List.app_assoc. cbn [app].
      eapply parseMembers_more; [apply plain_fieldName | |].
      * replace (List.length ks + 1 + fuel)%nat with (S (List.length ks + fuel)) by lia.
        apply P. eexists; eexists; split; [reflexivity | now left].
      * apply IH. discriminate.
Qed.

Lemma member_head (s : Score) (ks : list Field) :
  flat_map (member s) ks <> [] ->
  exists t, joinComma (flat_map (member s) ks) = 34%N :: t.
Proof.
  induction ks as [|k ks IH]; intros N; [now contradiction N|].
  cbn [flat_map] in *.
  destruct (member_parses s k) as [[M _]|[vt [val [M _]]]]; rewrite M in *.
  - now apply IH.
  - cbn [app]. destruct (flat_map (member s) ks); cbn [joinComma app]; eauto.
Qed.

Lemma parseValue_score (fuel : nat) (s : Score) (rest : JSON.text) :
  wellKeyed s ->
  JSON.parseValue (6 + fuel) (stringifyScore s ++ rest) = Some (jsonOfScore s, rest).
Proof.
  intros W. pose proof (wellKeyed_length s W) as L.
  unfold stringifyScore, jsonOfScore.
  change (JSON.lit "{") with [123%N]. change (JSON.lit "}") with [125%N].
  cbn [app]. rewrite <- List.app_assoc. cbn [app].
  destruct (flat_map (member s) (s_keys s)) as [|y l] eqn:F.
  - rewrite (memberValue_none s _ F). reflexivity.
  - assert (N : flat_map (member s) (s_keys s) <> []) by (rewrite F; discriminate).
    rewrite <- F.
    destruct (member_head s (s_keys s) N) as [t Ht].
    pose proof (parseMembers_fields s (s_keys s) (5 + fuel - (List.length (s_keys s) + 1))
                                    rest N) as P.
    replace (List.length (s_keys s) + 1 + (5 + fuel - (List.length (s_keys s) + 1)))%nat
      with (5 + fuel)%nat in P by lia.
    rewrite Ht in *. cbn [app] in *.
    change (6 + fuel)%nat with (S (5 + fuel)).
    now apply parseValue_object.
Qed.

Lemma parseElements_scores (t : list Score) : forall (s : Score) (fuel : nat) (rest : JSON.text),
  Forall wellKeyed (s :: t) ->
  JSON.parseElements (List.length (s :: t) + 6 + fuel)
                     (joinComma (map stringifyScore (s :: t)) ++ 93%N :: rest)
  = Some (map jsonOfScore (s :: t), rest).
Proof.
  induction t as [|s' t IH]; intros s fuel rest W; inversion W as [|x l Ws Wt]; subst.
  - cbn [List.length map joinComma Nat.add].
    apply parseElements_last.
    now apply (parseValue_score fuel s (93%N :: rest)).
  - cbn [map]. rewrite joinComma_cons. rewrite <- List.app_assoc. cbn [app].
    change (List.length (s :: s' :: t) + 6 + fuel)%nat
      with (S (List.length (s' :: t) + 6 + fuel)).
    eapply parseElements_more.
    + replace (List.length (s' :: t) + 6 + fuel)%nat
        with (6 + (List.length (s' :: t) + fuel))%nat by lia.
      now apply parseValue_score.
    + now apply (IH s' fuel rest).
Qed.

Lemma stringifyScore_length (s : Score) : (2 <= List.length (stringifyScore s))%nat.
Proof.
  unfold stringifyScore. rewrite !List.length_app.
  change (List.length (JSON.lit "{")) with 1%nat.
  change (List.length (JSON.lit "}")) with 1%nat. lia.
Qed.

Lemma joinComma_length (t : list Score) :
  (2 * List.length t <= List.length (joinComma (map stringifyScore t)))%nat.
Proof.
  induction t as [|s t IH]; [cbn; lia|].
  destruct t as [|s' t].
  - cbn [map joinComma List.length]. pose proof (stringifyScore_length s). lia.
  - cbn [map]. rewrite joinComma_cons, List.length_app. cbn [List.length map] in *.
    pose proof (stringifyScore_length s). lia.
Qed.

Lemma parse_stringifyBestScores (t : list Score) :
  Forall wellKeyed t ->
  JSON.parse (stringifyBestScores t) = Some (JSON.Array (map jsonOfScore t)).
Proof.
  intros W. unfold JSON.parse, stringifyBestScores.
  destruct t as [|s t]; [reflexivity|].
  change (JSON.lit "[") with [91%N]. change (JSON.lit "]") with [93%N].
  cbn [app].
  set (body := joinComma (map stringifyScore (s :: t))).
  assert (L : (2 * List.length (s :: t) <= List.length body)%nat)
    by apply joinComma_length.
  assert (F : exists fuel, (2 * List.length (91%N :: body ++ [93%N]) + 2)%nat
                           = S (List.length (s :: t) + 6 + fuel)).
  { exists (2 * List.length (91%N :: body ++ [93%N]) + 2 - S (List.length (s :: t) + 6))%nat.
    cbn [List.length] in *. rewrite List.length_app. cbn [List.length]. lia. }
  destruct F as [fuel F]. rewrite F.
  assert (H : exists r, body = 123%N :: r).
  { unfold body. destruct t; cbn [map joinComma]; unfold stringifyScore;
      change (JSON.lit "{") with [123%N]; cbn [app]; eauto. }
  destruct H as [r Eb].
  pose proof (parseElements_scores t s fuel [] W) as P. fold body in P.
  cbn [JSON.parseValue JSON.skipWs]. change (JSON.isWs 91) with false. cbv iota.
  change (91 =? 34)%N with false. change (91 =? 91)%N with true. cbv iota.
  rewrite Eb in *. cbn [app JSON.skipWs].
  change (JSON.isWs 123) with false. cbv iota.
  cbn [app] in P. rewrite P. reflexivity.
Qed.

Lemma integerOf_exact (z : Z) : Z.abs z <= 2 ^ 53 -> integerOf z 0 = Some z.
Proof.
  intros H. unfold integerOf.
  change (0 <=? 0) with true. cbv iota. change (10 ^ 0) with 1.
  rewrite Z.mul_1_r. apply Z.leb_le in H. rewrite H. reflexivity.
Qed.

Lemma modeOfName_modeName (m : GameMode) : modeOfName (modeName m) = Some m.
Proof. destruct m; reflexivity. Qed.

Lemma difficultyOfName_difficultyName (d : Difficulty) :
  difficultyOfName (difficultyName d) = Some d.
Proof. destruct d; reflexivity. Qed.

Lemma scoreOfJson_jsonOfScore (s : Score) :
  safeScore s -> wellKeyed s -> scoreOfJson (jsonOfScore s) = Some s.
Proof.
  intros [Hs Ht] W. apply wellKeyed_orders in W.
  destruct s as [m d sc tm keys]. cbn [s_time s_score s_keys] in *.
  unfold jsonOfScore. cbn [s_keys].
  destruct tm as [tm|]; cbv in W;
    repeat (destruct W as [W|W];
            [subst keys;
             cbv - [integerOf modeOfName difficultyOfName modeName difficultyName];
             rewrite modeOfName_modeName, difficultyOfName_difficultyName,
                     !integerOf_exact by assumption;
             reflexivity|]);
    contradiction.
Qed.

Lemma scoreOfJson_wellKeyed (v : JSON.value) (s : Score) :
  scoreOfJson v = Some s -> wellKeyed s.
Proof.
  unfold scoreOfJson, wellKeyed. intros H.
  repeat match type of H with
         | match ?x with _ => _ end = _ => destruct x eqn:?; try discriminate
         | (if ?x then _ else _) = _ => destruct x eqn:?; try discriminate
         end.
  all: inversion H; subst s; cbn [s_time s_keys]; assumption.
Qed.

Lemma scoresOfJson_wellKeyed (vs : list JSON.value) : forall t,
  scoresOfJson vs = Some t -> Forall wellKeyed t.
Proof.
  induction vs as [|v vs IH]; intros t H; cbn [scoresOfJson] in H.
  - inversion H. constructor.
  - destruct (scoreOfJson v) as [s|] eqn:E; [|discriminate].
    destruct (scoresOfJson vs) as [t'|]; [|discriminate].
    inversion H. constructor; [eapply scoreOfJson_wellKeyed; eassumption | now apply IH].
Qed.

Lemma scoresOfJson_map (t : list Score) :
  Forall safeScore t -> Forall wellKeyed t -> scoresOfJson (map jsonOfScore t) = Some t.
Proof.
  induction 1 as [|s t Hs _ IH]; intros W; cbn [map scoresOfJson]; [reflexivity|].
  inversion W; subst.
  rewrite (scoreOfJson_jsonOfScore s Hs) by assumption. now rewrite IH.
Qed.

Lemma stringifyBestScores_head (t : list Score) :
  exists r, stringifyBestScores t = 91%N :: r.
Proof. unfold stringifyBestScores. change (JSON.lit "[") with [91%N]. cbn [app]. eauto. Qed.

(** The table the component wrote is the table it loads. *)
Lemma stored_table_loads (t : list Score) :
  Forall safeScore t -> Forall wellKeyed t ->
  mount (Some (stringifyBestScores t))
  = Ready (update (setBestScores t) (initialWorld (Some (stringifyBestScores t)))).
Proof.
  intros S W. unfold mount, loadBestScores.
  rewrite (parse_stringifyBestScores t W).
  destruct (stringifyBestScores_head t) as [r E]. rewrite E at 1.
  cbn [bestScoresOfJson]. now rewrite (scoresOfJson_map t S W).
Qed.

(** *** The stored text follows the table *)

Lemma endGame_table (r : Render) (isWin : bool) (w : World) :
  sameTable w (endGame r isWin w) \/ written (endGame r isWin w).
Proof.
  unfold endGame, sameTable, written.
  destruct (newBest _ _ _ _ _); cbn; auto.
Qed.

Lemma handleCardClick_table (index : nat) (w : World) :
  sameTable w (worldOf (handleCardClick index w)).
Proof.
  unfold handleCardClick, sameTable.
  destruct (isChecking (ui w)); [auto|].
  destruct (nth_error (cards (ui w)) index) as [card|]; [|auto].
  destruct (isMatched card || includes (flippedIndexes (ui w)) index
            || (List.length (flippedIndexes (ui w)) =? 2)%nat); [auto|].
  destruct (flippedIndexes (ui w) ++ [index]) as [|a [|b [|c rest]]]; try (cbn; auto).
  destruct (nth_error (cards (ui w)) a) as [fc|]; [|cbn; auto].
  destruct (nth_error (cards (ui w)) b) as [sc|]; [|cbn; auto].
  destruct (Icon_eqb (icon fc) (icon sc)); cbn; auto.
Qed.

Lemma sameTable_written (w w' : World) :
  sameTable w w' -> written w -> written w'.
Proof. unfold sameTable, written. intros [B S] W. now rewrite B, S. Qed.

Lemma sameTable_trans (a b c : World) :
  sameTable a b -> sameTable b c -> sameTable a c.
Proof. unfold sameTable. intros [B1 S1] [B2 S2]. split; congruence. Qed.

Lemma runTimeout_table (t : Timeout) (w : World) :
  sameTable w (runTimeout t w) \/ written (runTimeout t w).
Proof.
  destruct t as [r a b|]; cbn [runTimeout]; [|left; split; reflexivity].
  destruct (2 * (matches (ui w) + 1) =? Z.of_nat (List.length (cards r)));
    [|left; split; reflexivity].
  match goal with
  | |- context [endGame r true ?v] =>
      destruct (endGame_table r true v) as [[B S]|W]; [left | right]
  end.
  - split; cbn; [exact B | exact S].
  - unfold written in *. cbn. exact W.
Qed.

Lemma step_table (e : Event) (w w' : World) :
  step e w = Some w' -> sameTable w w' \/ written w'.
Proof.
  intros S. unfold step in S.
  destruct (handle e w) as [w1|] eqn:H; [|discriminate].
  inversion S; subst w'. clear S.
  assert (H1 : sameTable w w1 \/ written w1).
  { destruct e; cbn [handle] in H;
      try (destruct (GameState_eqb (gameState (ui w)) _); [|discriminate];
           inversion H; subst w1; left; split; reflexivity).
    - destruct (GameState_eqb (gameState (ui w)) playing && GameMode_eqb (mode (ui w)) chrono
                && (0 <? timeLeft (ui w))); [|discriminate].
      inversion H; subst w1. left; split; reflexivity.
    - destruct (negb (GameState_eqb (gameState (ui w)) setup)
                && (index <? List.length (cards (ui w)))%nat); [|discriminate].
      inversion H; subst w1. left. unfold onCardClick.
      destruct (gameState (ui w)); try (split; reflexivity).
      apply handleCardClick_table.
    - destruct (nth_error (timeouts w) k) as [t|]; [|discriminate].
      inversion H; subst w1.
      match goal with
      | |- context [runTimeout t ?v] =>
          destruct (runTimeout_table t v) as [[B S]|W]; [left | right; exact W]
      end.
      split; [exact B | exact S]. }
  assert (H2 : sameTable w1 (runEffect (ui w) w1) \/ written (runEffect (ui w) w1)).
  { unfold runEffect.
    destruct (depsChanged (ui w) (ui w1) && third_branch (ui w1));
      [apply endGame_table | left; split; reflexivity]. }
  destruct H2 as [H2|H2]; [|now right].
  destruct H1 as [H1|H1].
  - left. eapply sameTable_trans; eassumption.
  - right. eapply sameTable_written; eassumption.
Qed.

(** Write-through: in every state reached from [w0], either the table
    and the stored text are still those of [w0], or the stored text is
    the text of the table. *)
Lemma storage_follows_table (w0 w : World) :
  reachableFrom w0 w -> sameTable w0 w \/ written w.
Proof.
  intros R.
  apply (reachableFrom_ind (fun v => sameTable w0 v \/ written v)) with (w0 := w0);
    [| left; split; reflexivity | exact R].
  intros e v v' P S. destruct (step_table e v v' S) as [T|W]; [|now right].
  destruct P as [P|P].
  - left. eapply sameTable_trans; eassumption.
  - right. eapply sameTable_written; eassumption.
Qed.

(* ------------------------------------------------------------------ *)
(** ** Loading the table *)

Lemma loadBestScores_Installed (txt : JSON.text) (v : JSON.value) :
  txt <> [] -> JSON.parse txt = Some v -> loadBestScores (Some txt) = Installed v.
Proof.
  intros N P. unfold loadBestScores.
  destruct txt as [|c txt]; [contradiction|]. now rewrite P.
Qed.

Lemma loadBestScores_Threw (item : option JSON.text) (e : Error) :
  loadBestScores item = Threw e
  <-> e = SyntaxError /\ exists txt, item = Some txt /\ txt <> [] /\ JSON.parse txt = None.
Proof.
  unfold loadBestScores. split.
  - destruct item as [[|c txt]|]; try discriminate.
    destruct (JSON.parse (c :: txt)) as [v|] eqn:P; [discriminate|].
    intros H. inversion H. split; [reflexivity|].
    exists (c :: txt). repeat split; [discriminate | exact P].
  - intros [E [txt [I [N P]]]]. subst item e.
    destruct txt as [|c txt]; [contradiction|]. now rewrite P.
Qed.

(** C5, as the code has it.  With no stored item, or with the empty
    string stored, [setBestScores] is not called, loading returns and
    the table is empty.  A stored text that [JSON.parse] accepts is
    handed to [setBestScores] as parsed, whatever the value: a table of
    [Score] objects becomes the table of the state, their properties in
    the order stored, and any other value (a number, [null], an array of
    numbers) is installed all the same, neither refused nor replaced by
    an empty table.  The text the component itself writes for a table
    loads as that table.  Loading throws exactly when the stored text is
    not empty and [JSON.parse] rejects it, and what it throws is the
    [SyntaxError] of [JSON.parse]: nothing catches it. *)
Theorem loadBestScores_outcomes :
  (loadBestScores None = Skipped /\ loadBestScores (Some []) = Skipped
   /\ mount None = Ready (initialWorld None)
   /\ mount (Some []) = Ready (initialWorld (Some []))
   /\ bestScores (ui (initialWorld None)) = [])
  /\ (forall (txt : JSON.text) (v : JSON.value),
        txt <> [] -> JSON.parse txt = Some v ->
        loadBestScores (Some txt) = Installed v
        /\ mount (Some txt)
           = match bestScoresOfJson v with
             | Some t => Ready (update (setBestScores t) (initialWorld (Some txt)))
             | None => Untyped v
             end)
  /\ (loadBestScores (Some (JSON.lit "5")) = Installed (JSON.Number 5 0)
      /\ mount (Some (JSON.lit "5")) = Untyped (JSON.Number 5 0)
      /\ mount (Some (JSON.lit "null")) = Untyped JSON.Null
      /\ mount (Some (JSON.lit "[1, 2]"))
         = Untyped (JSON.Array [JSON.Number 1 0; JSON.Number 2 0])
      /\ mount (Some reorderedTable)
         = Ready (update (setBestScores
                            [scoreObject chrono moyen 700 (Some 12)
                                         [f_score; f_time; f_mode; f_difficulty]])
                         (initialWorld (Some reorderedTable))))
  /\ (forall t, Forall safeScore t -> Forall wellKeyed t ->
        mount (Some (stringifyBestScores t))
        = Ready (update (setBestScores t) (initialWorld (Some (stringifyBestScores t)))))
  /\ (forall item e,
        (loadBestScores item = Threw e <-> mount item = Crashed e)
        /\ (mount item = Crashed e
            <-> e = SyntaxError
                /\ exists txt, item = Some txt /\ txt <> [] /\ JSON.parse txt = None)).
Proof.
  split; [repeat split; reflexivity|].
  split; [|split; [|split; [exact stored_table_loads|]]].
  - intros txt v N P. split; [now apply loadBestScores_Installed|].
    unfold mount. rewrite (loadBestScores_Installed txt v N P).
    destruct (bestScoresOfJson v); reflexivity.
  - repeat split; vm_compute; reflexivity.
  - intros item e.
    assert (M : loadBestScores item = Threw e <-> mount item = Crashed e).
    { unfold mount. destruct (loadBestScores item) as [|v|e'].
      - split; discriminate.
      - destruct (bestScoresOfJson v); split; discriminate.
      - split; intros H; inversion H; reflexivity. }
    split; [exact M|]. rewrite <- M. apply loadBestScores_Threw.
Qed.

(** C5 as stated fails: a stored text cut short is not read as "no
    prior scores"; loading it throws. *)
Lemma loadBestScores_malformed_throws :
  mount (Some (JSON.lit "[{")) = Crashed SyntaxError
  /\ ~ (forall item, exists w, mount item = Ready w).
Proof.
  split; [vm_compute; reflexivity|].
  intros H. destruct (H (Some (JSON.lit "[{"))) as [w E].
  vm_compute in E. discriminate.
Qed.

(* ================================================================== *)
(** * Further properties *)

(* ------------------------------------------------------------------ *)
(** ** The cards of a deck *)

Lemma iconAt_colorAt (i j : nat) : iconAt i = iconAt j <-> colorAt i = colorAt j.
Proof.
  unfold iconAt, colorAt. cbn [List.length ICONS COLORS].
  pose proof (Nat.mod_upper_bound i 6 ltac:(discriminate)) as Hi.
  pose proof (Nat.mod_upper_bound j 6 ltac:(discriminate)) as Hj.
  destruct (i mod 6)%nat as [|[|[|[|[|[|?]]]]]]; try lia;
  destruct (j mod 6)%nat as [|[|[|[|[|[|?]]]]]]; try lia;
    cbn; split; intros H; try reflexivity; discriminate H.
Qed.

(** X1.  In every deck the card with id [n] carries the icon and the
    color of entry [(n / 2) mod 6] of the two palettes, and its id is
    below twice [pairs].  So two cards of a deck have the same icon
    exactly when they have the same color, and a card of a deck is
    determined by its id. *)
Theorem createCards_card_by_id (sh : Shuffle) (d : Difficulty) :
  let deck := createCards sh d in
  Forall (fun c => icon c = iconAt (id c / 2) /\ color c = colorAt (id c / 2)
                   /\ (id c < 2 * pairs (DIFFICULTY_CONFIG d))%nat) deck
  /\ (forall c1 c2, In c1 deck -> In c2 deck ->
        (icon c1 = icon c2 <-> color c1 = color c2))
  /\ (forall c1 c2, In c1 deck -> In c2 deck -> id c1 = id c2 -> c1 = c2).
Proof.
  intros deck.
  assert (F : forall c, In c deck ->
            icon c = iconAt (id c / 2) /\ color c = colorAt (id c / 2)
            /\ isMatched c = false
            /\ (id c < 2 * pairs (DIFFICULTY_CONFIG d))%nat).
  { intros c H. apply createCards_In in H. destruct H as [i [Hi Hc]].
    pose proof (pairOf_made i c Hc) as [E [I [C M]]]. rewrite E.
    repeat split; try assumption.
    assert (id c = (i * 2)%nat \/ id c = (i * 2 + 1)%nat).
    { destruct Hc as [X|[X|[]]]; subst c; cbn; auto. }
    lia. }
  split; [|split].
  - apply Forall_forall. intros c H. destruct (F c H) as [I [C [_ B]]]. auto.
  - intros c1 c2 H1 H2. destruct (F c1 H1) as [I1 [C1 _]].
    destruct (F c2 H2) as [I2 [C2 _]]. rewrite I1, I2, C1, C2. apply iconAt_colorAt.
  - intros c1 c2 H1 H2 E. destruct (F c1 H1) as [I1 [C1 [M1 _]]].
    destruct (F c2 H2) as [I2 [C2 [M2 _]]].
    destruct c1, c2. cbn in *. subst. reflexivity.
Qed.

(** X2.  Every card of a deck has a partner in the deck: another card,
    with another id, made by the same iteration, with the same icon and
    the same color.  No card is left that nothing can match. *)
Theorem createCards_partner (sh : Shuffle) (d : Difficulty) (c : MemoryCard) :
  In c (createCards sh d) ->
  exists c', In c' (createCards sh d)
             /\ id c' <> id c /\ (id c' / 2 = id c / 2)%nat
             /\ icon c' = icon c /\ color c' = color c.
Proof.
  intros H. apply createCards_In in H. destruct H as [i [Hi Hc]].
  pose proof (pairOf_made i c Hc) as [E [I [C M]]].
  assert (P : exists c', In c' (pairOf i) /\ id c' <> id c).
  { destruct Hc as [X|[X|[]]]; subst c.
    - eexists. split; [right; left; reflexivity | cbn; lia].
    - eexists. split; [left; reflexivity | cbn; lia]. }
  destruct P as [c' [Hc' D]].
  pose proof (pairOf_made i c' Hc') as [E' [I' [C' M']]].
  exists c'. repeat split; try congruence.
  apply createCards_In. eauto.
Qed.

(* ------------------------------------------------------------------ *)
(** ** Turns *)

Lemma markMatched_nth (cs : list MemoryCard) : forall k a b i,
  nth_error (markMatched k a b cs) i
  = option_map (fun card => if ((k + i =? a) || (k + i =? b))%nat
                            then matchedCopy card else card)
               (nth_error cs i).
Proof.
  induction cs as [|c cs IH]; intros k a b i.
  - destruct i; reflexivity.
  - cbn [markMatched]. destruct i as [|i]; cbn [nth_error option_map].
    + rewrite Nat.add_0_r. reflexivity.
    + rewrite IH. replace (S k + i)%nat with (k + S i)%nat by lia. reflexivity.
Qed.

Lemma markMatched_length (cs : list MemoryCard) : forall k a b,
  List.length (markMatched k a b cs) = List.length cs.
Proof. induction cs as [|c cs IH]; intros; cbn; [reflexivity | now rewrite IH]. Qed.

Lemma markMatched_faces (cs : list MemoryCard) : forall k a b,
  map id (markMatched k a b cs) = map id cs
  /\ map icon (markMatched k a b cs) = map icon cs
  /\ map color (markMatched k a b cs) = map color cs.
Proof.
  induction cs as [|c cs IH]; intros k a b; cbn [markMatched map].
  - auto.
  - destruct (IH (S k) a b) as [E1 [E2 E3]]. rewrite E1, E2, E3.
    destruct ((k =? a)%nat || (k =? b)%nat); auto.
Qed.

(** X3.  The [cards.map] of the match callback keeps the length of the
    deck and the id, icon and color of every card; the card at index [i]
    becomes a matched copy when [i] is one of the two indexes and is the
    same card otherwise; a card that was matched stays matched. *)
Theorem markMatched_exactly (cs : list MemoryCard) (a b : nat) :
  let cs' := markMatched 0 a b cs in
  List.length cs' = List.length cs
  /\ map id cs' = map id cs /\ map icon cs' = map icon cs /\ map color cs' = map color cs
  /\ (forall i card, nth_error cs i = Some card ->
        nth_error cs' i
        = Some (if ((i =? a) || (i =? b))%nat then matchedCopy card else card))
  /\ (forall i card, nth_error cs i = Some card -> isMatched card = true ->
        exists card', nth_error cs' i = Some card' /\ isMatched card' = true).
Proof.
  intros cs'. unfold cs'.
  split; [apply markMatched_length|].
  destruct (markMatched_faces cs 0 a b) as [E1 [E2 E3]].
  repeat split; try assumption.
  - intros i card N. rewrite markMatched_nth, N. reflexivity.
  - intros i card N M. eapply markMatched_keeps; eassumption.
Qed.

Lemma nth_error_snoc {A} (l : list A) (x : A) :
  nth_error (l ++ [x]) (List.length l) = Some x.
Proof. induction l; cbn; auto. Qed.

Lemma removeAt_snoc {A} (l : list A) (x : A) :
  removeAt (List.length l) (l ++ [x]) = l.
Proof. induction l as [|y l IH]; cbn; [reflexivity | now rewrite IH]. Qed.

Lemma runEffect_same_deps (before : Render) (w : World) :
  timeLeft (ui w) = timeLeft before -> gameState (ui w) = gameState before ->
  mode (ui w) = mode before ->
  runEffect before w = w.
Proof.
  intros T G M. unfold runEffect, depsChanged. rewrite T, G, M, Z.eqb_refl.
  destruct (gameState before), (mode before); reflexivity.
Qed.

(** The first two clicks of a turn, on two face-down cards. *)
Lemma two_clicks (w : World) (a b : nat) (ca cb : MemoryCard) :
  gameState (ui w) = playing -> isChecking (ui w) = false ->
  flippedIndexes (ui w) = [] ->
  nth_error (cards (ui w)) a = Some ca -> nth_error (cards (ui w)) b = Some cb ->
  isMatched ca = false -> isMatched cb = false -> a <> b ->
  run [CardClick a; CardClick b] w
  = Some (setTimeout (if Icon_eqb (icon ca) (icon cb)
                      then MatchTimeout (setFlippedIndexes [a] (ui w)) a b
                      else MismatchTimeout)
            (update (fun r => setIsChecking true (setFlippedIndexes [a; b] r)) w)).
Proof.
  intros G C F Na Nb Ma Mb D.
  assert (La : (a <? List.length (cards (ui w)))%nat = true).
  { apply Nat.ltb_lt, nth_error_Some. congruence. }
  assert (Lb : (b <? List.length (cards (ui w)))%nat = true).
  { apply Nat.ltb_lt, nth_error_Some. congruence. }
  cbn [run]. unfold step at 1. cbn [handle]. rewrite G, La. cbn [GameState_eqb negb andb].
  unfold onCardClick at 1. rewrite G. unfold handleCardClick at 1.
  rewrite C, Na, Ma, F. cbn [includes existsb List.length Nat.eqb orb app worldOf].
  rewrite runEffect_same_deps by reflexivity.
  unfold step. cbn [handle ui update gameState setFlippedIndexes cards].
  rewrite G, Lb. cbn [GameState_eqb negb andb].
  unfold onCardClick. cbn [ui update gameState setFlippedIndexes]. rewrite G.
  unfold handleCardClick.
  cbn [ui update isChecking cards flippedIndexes setFlippedIndexes].
  rewrite C, Nb, Mb.
  assert (E : (b =? a)%nat = false) by (apply Nat.eqb_neq; congruence).
  cbn [includes existsb List.length Nat.eqb orb app]. rewrite E. cbn [orb].
  rewrite Na, Nb.
  destruct (Icon_eqb (icon ca) (icon cb)); cbn [worldOf];
    rewrite runEffect_same_deps by reflexivity; reflexivity.
Qed.

Lemma run_app (es1 es2 : list Event) (w : World) :
  run (es1 ++ es2) w
  = match run es1 w with Some w' => run es2 w' | None => None end.
Proof.
  revert w. induction es1 as [|e es1 IH]; intros w; cbn [app run]; [reflexivity|].
  destruct (step e w); [apply IH | reflexivity].
Qed.

(** X4.  A turn on two face-down cards with different icons, followed
    by its callback, brings back the very state the turn began in:
    clicking [a], clicking [b] and running the callback scheduled last
    is a round trip, whatever else is pending. *)
Theorem mismatch_round_trip (w : World) (a b : nat) (ca cb : MemoryCard) :
  gameState (ui w) = playing -> isChecking (ui w) = false ->
  flippedIndexes (ui w) = [] ->
  nth_error (cards (ui w)) a = Some ca -> nth_error (cards (ui w)) b = Some cb ->
  isMatched ca = false -> isMatched cb = false -> a <> b ->
  icon ca <> icon cb ->
  run [CardClick a; CardClick b; TimeoutFires (List.length (timeouts w))] w = Some w.
Proof.
  intros G C F Na Nb Ma Mb D I.
  change [CardClick a; CardClick b; TimeoutFires (List.length (timeouts w))]
    with ([CardClick a; CardClick b] ++ [TimeoutFires (List.length (timeouts w))]).
  rewrite run_app, (two_clicks w a b ca cb G C F Na Nb Ma Mb D).
  assert (E : Icon_eqb (icon ca) (icon cb) = false).
  { destruct (icon ca), (icon cb); try reflexivity; now contradiction I. }
  rewrite E. cbn [run]. unfold step. cbn [handle setTimeout update timeouts ui storage toasts].
  rewrite nth_error_snoc, removeAt_snoc. cbn [runTimeout].
  rewrite runEffect_same_deps by reflexivity.
  destruct w as [[gs md df cs fl ma ch tl sc bs] st ts to].
  cbn in *. subst. reflexivity.
Qed.

Lemma runEffect_idle (before : Render) (w : World) :
  gameState (ui w) <> playing -> runEffect before w = w.
Proof.
  intros G. unfold runEffect, third_branch.
  destruct (gameState (ui w)); try (now rewrite andb_false_r || reflexivity);
    rewrite ?andb_false_r; try reflexivity.
  now contradiction G.
Qed.

Lemma endGame_toasts (r : Render) (isWin : bool) (w : World) :
  toasts (endGame r isWin w) = isWin :: toasts w.
Proof. unfold endGame. destruct (newBest _ _ _ _ _); reflexivity. Qed.

(** X5.  A turn on two face-down cards with the same icon, followed by
    its callback: the deck is the old one with these two cards marked
    (two more matched cards), one more match is counted, no index is
    flipped, no check is in progress, and mode, difficulty, time left
    and the other pending callbacks are untouched.  When the new count
    is half the deck the game is finished with the win toast; otherwise
    the game goes on and score, table, storage and toasts are as they
    were. *)
Theorem match_marks_pair (w : World) (a b : nat) (ca cb : MemoryCard) :
  gameState (ui w) = playing -> isChecking (ui w) = false ->
  flippedIndexes (ui w) = [] ->
  nth_error (cards (ui w)) a = Some ca -> nth_error (cards (ui w)) b = Some cb ->
  isMatched ca = false -> isMatched cb = false -> a <> b ->
  icon ca = icon cb ->
  exists w',
    run [CardClick a; CardClick b; TimeoutFires (List.length (timeouts w))] w = Some w'
    /\ cards (ui w') = markMatched 0 a b (cards (ui w))
    /\ matchedCount (cards (ui w')) = S (S (matchedCount (cards (ui w))))
    /\ matches (ui w') = matches (ui w) + 1
    /\ flippedIndexes (ui w') = [] /\ isChecking (ui w') = false
    /\ timeouts w' = timeouts w
    /\ mode (ui w') = mode (ui w) /\ difficulty (ui w') = difficulty (ui w)
    /\ timeLeft (ui w') = timeLeft (ui w)
    /\ (if 2 * (matches (ui w) + 1) =? Z.of_nat (List.length (cards (ui w)))
        then gameState (ui w') = finished /\ toasts w' = true :: toasts w
        else gameState (ui w') = playing /\ toasts w' = toasts w
             /\ score (ui w') = score (ui w) /\ bestScores (ui w') = bestScores (ui w)
             /\ storage w' = storage w).
Proof.
  intros G C F Na Nb Ma Mb D I.
  change [CardClick a; CardClick b; TimeoutFires (List.length (timeouts w))]
    with ([CardClick a; CardClick b] ++ [TimeoutFires (List.length (timeouts w))]).
  rewrite run_app, (two_clicks w a b ca cb G C F Na Nb Ma Mb D).
  assert (E : Icon_eqb (icon ca) (icon cb) = true).
  { rewrite I. destruct (icon cb); reflexivity. }
  rewrite E. cbn [run]. unfold step. cbn [handle setTimeout update timeouts ui storage toasts].
  rewrite nth_error_snoc, removeAt_snoc. cbn [runTimeout].
  cbn [ui update cards matches setFlippedIndexes setIsChecking setCards].
  assert (K : matchedCount (markMatched 0 a b (cards (ui w)))
              = S (S (matchedCount (cards (ui w))))).
  { apply (markMatched_two (cards (ui w)) 0 a b ca cb); assumption. }
  destruct (2 * (matches (ui w) + 1) =? Z.of_nat (List.length (cards (ui w)))) eqn:L.
  - match goal with
    | |- context [endGame ?r true ?v] =>
        pose proof (endGame_cells r true v) as X; cbv zeta in X;
        pose proof (endGame_timeouts r true v) as Y;
        pose proof (endGame_toasts r true v) as Z0;
        revert X Y Z0; generalize (endGame r true v)
    end.
    intros v [Gs [_ [Md [Df [Cd [Fl [Mt [Ck Tl]]]]]]]] Y Z0.
    cbn [ui update cards matches setFlippedIndexes setIsChecking setCards
         flippedIndexes isChecking timeLeft mode difficulty timeouts toasts] in *.
    eexists. split.
    + rewrite runEffect_idle; [reflexivity|].
      cbn. rewrite Gs. discriminate.
    + cells. rewrite Gs, Md, Df, Cd, Tl, Y, Z0, K, Fl. repeat split; reflexivity.
  - eexists. split.
    + rewrite runEffect_same_deps; [reflexivity | reflexivity | cbn; now rewrite G | reflexivity].
    + cells. rewrite K, G. repeat split; reflexivity.
Qed.

(* ------------------------------------------------------------------ *)
(** ** Matches and the deck *)

Lemma pairInv_drained (es : list Event) : forall w0 w,
  pairInv w0 -> runDrained es w0 = Some w -> pairInv w.
Proof.
  induction es as [|e es IH]; intros w0 w K R; cbn [runDrained] in R.
  - now inversion R; subst.
  - destruct (drained e w0) eqn:D; [|discriminate].
    destruct (step e w0) as [w1|] eqn:S; [|discriminate].
    apply (IH w1 w); [|exact R]. eapply pairInv_step; eassumption.
Qed.

Lemma matchedCount_le (cs : list MemoryCard) :
  (matchedCount cs <= List.length cs)%nat.
Proof. unfold matchedCount. apply filter_length_le. Qed.

Lemma matchedCount_full (cs : list MemoryCard) :
  matchedCount cs = List.length cs <-> Forall (fun c => isMatched c = true) cs.
Proof.
  induction cs as [|c cs IH].
  - split; [constructor | reflexivity].
  - rewrite matchedCount_cons. cbn [List.length]. pose proof (matchedCount_le cs).
    destruct (isMatched c) eqn:M; split; intros X.
    + constructor; [exact M | apply IH; lia].
    + inversion X; subst. apply IH in H3. lia.
    + lia.
    + inversion X; subst. congruence.
Qed.

Lemma matchedCount_short (cs : list MemoryCard) :
  matchedCount cs <> List.length cs -> exists c, In c cs /\ isMatched c = false.
Proof.
  induction cs as [|c cs IH]; intros H.
  - now contradiction H.
  - rewrite matchedCount_cons in H. cbn [List.length] in H.
    destruct (isMatched c) eqn:M.
    + destruct IH as [c' [I' M']]; [lia|]. exists c'. split; [now right | exact M'].
    + exists c. split; [now left | exact M].
Qed.

(** X6.  Along runs in which no callback is pending when a game
    starts, in every state the matched cards are twice the matches
    counted, and the matches counted lie between 0 and half the deck. *)
Theorem matches_within_deck (item : option JSON.text) (w0 w : World) (es : list Event) :
  mount item = Ready w0 -> runDrained es w0 = Some w ->
  Z.of_nat (matchedCount (cards (ui w))) = 2 * matches (ui w)
  /\ 0 <= matches (ui w)
  /\ 2 * matches (ui w) <= Z.of_nat (List.length (cards (ui w))).
Proof.
  intros M R.
  pose proof (matched_count_when_drained es w0 w (pairInv_mounted item w0 M) R) as C.
  pose proof (matchedCount_le (cards (ui w))) as L.
  repeat split; [exact C | lia | lia].
Qed.

(** X7.  Along such runs, when the callback of a matching pair runs,
    either every card of the deck is now matched, and then the game is
    finished and the win toast is shown, or some card is still unmatched,
    and then no toast is shown and the phase is as it was.  The win is
    declared exactly when the deck is complete. *)
Theorem win_when_all_matched (item : option JSON.text) (w0 w w' : World)
    (es : list Event) (k : nat) (r : Render) (a b : nat) :
  mount item = Ready w0 -> runDrained es w0 = Some w ->
  nth_error (timeouts w) k = Some (MatchTimeout r a b) ->
  step (TimeoutFires k) w = Some w' ->
  (toasts w' = true :: toasts w /\ gameState (ui w') = finished
   /\ Forall (fun c => isMatched c = true) (cards (ui w')))
  \/ (toasts w' = toasts w /\ gameState (ui w') = gameState (ui w)
      /\ exists c, In c (cards (ui w')) /\ isMatched c = false).
Proof.
  intros M R N St.
  pose proof (pairInv_drained es w0 w (pairInv_mounted item w0 M) R) as [C [F [Nd T]]].
  destruct T as [T|[Ck [G [t [T Ft]]]]]; [rewrite T in N; destruct k; discriminate|].
  rewrite T in N. destruct k as [|k]; [|destruct k; discriminate].
  cbn [nth_error] in N. inversion N; subst t. clear N.
  cbn [timeoutFits] in Ft. destruct Ft as [Cd Fl].
  rewrite Fl in F, Nd.
  inversion F as [|? ? [ca [Na Ma]] F1]; subst.
  inversion F1 as [|? ? [cb [Nb Mb]] _]; subst.
  assert (D : a <> b) by (inversion Nd; subst; intros X; apply H1; now left).
  assert (K : matchedCount (markMatched 0 a b (cards r))
              = S (S (matchedCount (cards (ui w))))).
  { rewrite Cd. apply (markMatched_two (cards (ui w)) 0 a b ca cb); assumption. }
  unfold step in St. cbn [handle] in St. rewrite T in St. cbn [nth_error removeAt runTimeout] in St.
  cbn [ui update cards matches] in St.
  destruct (2 * (matches (ui w) + 1) =? Z.of_nat (List.length (cards r))) eqn:L.
  - left. apply Z.eqb_eq in L.
    match type of St with
    | context [endGame r true ?v] =>
        pose proof (endGame_cells r true v) as X; cbv zeta in X;
        pose proof (endGame_toasts r true v) as Z0;
        revert St X Z0; generalize (endGame r true v)
    end.
    intros v St [Gs [_ [_ [_ [Cv _]]]]] Z0.
    rewrite runEffect_idle in St by (cells; rewrite Gs; discriminate).
    inversion St; subst w'. cells. rewrite Gs, Cv, Z0.
    repeat split. apply matchedCount_full.
    rewrite markMatched_length, K. lia.
  - right. apply Z.eqb_neq in L.
    rewrite runEffect_same_deps in St by reflexivity.
    inversion St; subst w'. cells. repeat split.
    apply matchedCount_short. rewrite markMatched_length, K. lia.
Qed.

(* ------------------------------------------------------------------ *)
(** ** The countdown *)

Lemma clockInv_idle (w w' : World) :
  timeLeft (ui w') = timeLeft (ui w) ->
  gameState (ui w') = setup \/ gameState (ui w') = finished ->
  clockInv w -> clockInv w'.
Proof.
  intros T G [R _]. unfold clockInv. rewrite T.
  split; [exact R|]. split; intros X; destruct G as [G|G]; congruence.
Qed.

Lemma clockInv_same (w w' : World) :
  timeLeft (ui w') = timeLeft (ui w) -> gameState (ui w') = gameState (ui w) ->
  mode (ui w') = mode (ui w) -> difficulty (ui w') = difficulty (ui w) ->
  clockInv w -> clockInv w'.
Proof.
  intros T G M D H. unfold clockInv, startTime in *. now rewrite T, G, M, D.
Qed.

Lemma clockInv_third_branch (w : World) : clockInv w -> third_branch (ui w) = false.
Proof.
  intros [_ [_ P]]. unfold third_branch.
  destruct (gameState (ui w)) eqn:G; cbn; rewrite ?andb_false_r; try reflexivity.
  specialize (P eq_refl). destruct (mode (ui w)); cbn; [now rewrite andb_false_r|].
  assert (E : (0 <? timeLeft (ui w)) = true) by (apply Z.ltb_lt; lia).
  rewrite E. reflexivity.
Qed.

Lemma clockInv_runEffect (before : Render) (w : World) :
  clockInv w -> runEffect before w = w.
Proof.
  intros H. unfold runEffect. rewrite (clockInv_third_branch w H).
  now rewrite andb_false_r.
Qed.

Lemma handleCardClick_cells (index : nat) (w : World) :
  let w' := worldOf (handleCardClick index w) in
  timeLeft (ui w') = timeLeft (ui w) /\ gameState (ui w') = gameState (ui w)
  /\ mode (ui w') = mode (ui w) /\ difficulty (ui w') = difficulty (ui w)
  /\ cards (ui w') = cards (ui w) /\ matches (ui w') = matches (ui w)
  /\ score (ui w') = score (ui w) /\ toasts w' = toasts w.
Proof.
  unfold handleCardClick.
  destruct (isChecking (ui w)); [cbn; repeat split|].
  destruct (nth_error (cards (ui w)) index) as [card|]; [|cbn; repeat split].
  destruct (isMatched card || includes (flippedIndexes (ui w)) index
            || (List.length (flippedIndexes (ui w)) =? 2)%nat); [cbn; repeat split|].
  destruct (flippedIndexes (ui w) ++ [index]) as [|a [|b [|c rest]]];
    try (cbn; repeat split; reflexivity).
  destruct (nth_error (cards (ui w)) a) as [fc|]; [|cbn; repeat split].
  destruct (nth_error (cards (ui w)) b) as [sc|]; [|cbn; repeat split].
  destruct (Icon_eqb (icon fc) (icon sc)); cbn; repeat split.
Qed.

Lemma onCardClick_cells (index : nat) (w : World) :
  let w' := worldOf (onCardClick index w) in
  timeLeft (ui w') = timeLeft (ui w) /\ gameState (ui w') = gameState (ui w)
  /\ mode (ui w') = mode (ui w) /\ difficulty (ui w') = difficulty (ui w)
  /\ cards (ui w') = cards (ui w) /\ matches (ui w') = matches (ui w)
  /\ score (ui w') = score (ui w) /\ toasts w' = toasts w.
Proof.
  pose proof (handleCardClick_cells index w) as H. cbv zeta in *.
  unfold onCardClick. destruct (gameState (ui w)) eqn:G;
    try (cbn; rewrite ?G; repeat split; reflexivity).
  exact H.
Qed.

Lemma runTimeout_cells (t : Timeout) (w : World) :
  let w' := runTimeout t w in
  timeLeft (ui w') = timeLeft (ui w) /\ mode (ui w') = mode (ui w)
  /\ difficulty (ui w') = difficulty (ui w)
  /\ ((gameState (ui w') = gameState (ui w) /\ toasts w' = toasts w)
      \/ (gameState (ui w') = finished /\ toasts w' = true :: toasts w
          /\ exists r a b, t = MatchTimeout r a b)).
Proof.
  destruct t as [r a b|]; cbn [runTimeout]; [|cbn; repeat split; left; split; reflexivity].
  destruct (2 * (matches (ui w) + 1) =? Z.of_nat (List.length (cards r))).
  - match goal with
    | |- context [endGame r true ?v] =>
        pose proof (endGame_cells r true v) as X; cbv zeta in X;
        pose proof (endGame_toasts r true v) as Z0;
        revert X Z0; generalize (endGame r true v)
    end.
    intros v [Gs [_ [Md [Df [_ [_ [_ [_ Tl]]]]]]]] Z0. cells.
    rewrite Tl, Md, Df, Gs, Z0. repeat split. right. repeat split. eauto.
  - cbn. repeat split. left. split; reflexivity.
Qed.

(** Every event but the countdown tick keeps the clock where the phase
    wants it, before the effect has run. *)
Lemma clockInv_handle (e : Event) (w w1 : World) :
  e <> IntervalTick -> clockInv w -> handle e w = Some w1 -> clockInv w1.
Proof.
  intros Ne K H. destruct e; cbn [handle] in H.
  - destruct (GameState_eqb (gameState (ui w)) setup) eqn:G; [|discriminate].
    inversion H; subst w1. apply (clockInv_idle w); [reflexivity | | exact K].
    left. cbn. destruct (gameState (ui w)); try discriminate; reflexivity.
  - destruct (GameState_eqb (gameState (ui w)) setup) eqn:G; [|discriminate].
    inversion H; subst w1. apply (clockInv_idle w); [reflexivity | | exact K].
    left. cbn. destruct (gameState (ui w)); try discriminate; reflexivity.
  - destruct (GameState_eqb (gameState (ui w)) setup); [|discriminate].
    inversion H; subst w1. unfold clockInv, startTime. rewrite startGame_ui. cbn.
    destruct (mode (ui w)), (difficulty (ui w)); cbn; repeat split; try lia; discriminate.
  - destruct (GameState_eqb (gameState (ui w)) preview) eqn:G; [|discriminate].
    inversion H; subst w1. destruct K as [R [P _]].
    assert (G' : gameState (ui w) = preview)
      by (destruct (gameState (ui w)); try discriminate; reflexivity).
    specialize (P G'). unfold clockInv, startTime in *. cbn.
    split; [exact R|]. split; [discriminate|]. intros _.
    destruct (mode (ui w)); [exact P|].
    rewrite P. destruct (difficulty (ui w)); cbn; lia.
  - now contradiction Ne.
  - destruct (negb (GameState_eqb (gameState (ui w)) setup)
              && (index <? List.length (cards (ui w)))%nat); [|discriminate].
    inversion H; subst w1.
    destruct (onCardClick_cells index w) as [T [G [M [D _]]]].
    now apply (clockInv_same w).
  - destruct (nth_error (timeouts w) k) as [t|]; [|discriminate].
    inversion H; subst w1.
    match goal with
    | |- clockInv (runTimeout t ?v) =>
        destruct (runTimeout_cells t v) as [T [M [D [[G _]|[G _]]]]]
    end.
    + apply (clockInv_same w); assumption.
    + apply (clockInv_idle w); [exact T | now right | exact K].
  - destruct (GameState_eqb (gameState (ui w)) finished); [|discriminate].
    inversion H; subst w1. apply (clockInv_idle w); [reflexivity | now left | exact K].
Qed.

(** What one tick of the countdown does, effect included. *)
Lemma step_IntervalTick (w : World) :
  gameState (ui w) = playing -> mode (ui w) = chrono -> 1 <= timeLeft (ui w) ->
  step IntervalTick w
  = Some (if timeLeft (ui w) =? 1
          then endGame (setTimeLeft 0 (ui w)) false (update (setTimeLeft 0) w)
          else update (setTimeLeft (timeLeft (ui w) - 1)) w).
Proof.
  intros G M T. unfold step. cbn [handle]. rewrite G, M.
  assert (E : (0 <? timeLeft (ui w)) = true) by (apply Z.ltb_lt; lia).
  rewrite E. cbn [GameState_eqb GameMode_eqb andb].
  unfold runEffect, depsChanged, third_branch. cbn. rewrite G, M. cbn.
  assert (E2 : (timeLeft (ui w) =? timeLeft (ui w) - 1) = false) by (apply Z.eqb_neq; lia).
  rewrite E2. cbn.
  destruct (timeLeft (ui w) =? 1) eqn:E1.
  - apply Z.eqb_eq in E1. rewrite E1. reflexivity.
  - apply Z.eqb_neq in E1.
    assert (E3 : (0 <? timeLeft (ui w) - 1) = true) by (apply Z.ltb_lt; lia).
    rewrite E3. reflexivity.
Qed.

Lemma clockInv_step (e : Event) (w w' : World) :
  clockInv w -> step e w = Some w' -> clockInv w'.
Proof.
  intros K St.
  assert (D : e = IntervalTick \/ e <> IntervalTick)
    by (destruct e; (now left) || (right; discriminate)).
  destruct D as [D|D].
  - subst e. pose proof St as St0. unfold step in St0. cbn [handle] in St0.
    destruct (GameState_eqb (gameState (ui w)) playing) eqn:G; [|discriminate].
    destruct (GameMode_eqb (mode (ui w)) chrono) eqn:M; [|discriminate].
    destruct (0 <? timeLeft (ui w)) eqn:T; [|discriminate]. clear St0.
    assert (G' : gameState (ui w) = playing)
      by (destruct (gameState (ui w)); try discriminate; reflexivity).
    assert (M' : mode (ui w) = chrono)
      by (destruct (mode (ui w)); try discriminate; reflexivity).
    apply Z.ltb_lt in T.
    rewrite (step_IntervalTick w G' M' ltac:(lia)) in St. inversion St; subst w'. clear St.
    destruct K as [R [_ P]]. specialize (P G'). rewrite M' in P.
    destruct (timeLeft (ui w) =? 1) eqn:E1.
    + match goal with
      | |- clockInv (endGame ?r false ?v) =>
          destruct (endGame_cells r false v) as [Gs [_ [_ [_ [_ [_ [_ [_ Tl]]]]]]]]
      end.
      unfold clockInv. rewrite Gs, Tl. cbn. repeat split; try lia; discriminate.
    + apply Z.eqb_neq in E1. unfold clockInv. cbn. rewrite G', M'.
      repeat split; try lia; discriminate.
  - unfold step in St. destruct (handle e w) as [w1|] eqn:H; [|discriminate].
    pose proof (clockInv_handle e w w1 D K H) as K1.
    rewrite (clockInv_runEffect (ui w) w1 K1) in St. now inversion St; subst.
Qed.

Lemma clockInv_reachable (w : World) : reachable w -> clockInv w.
Proof.
  intros [item [w0 [M R]]].
  apply (reachableFrom_ind clockInv) with (w0 := w0); [| |exact R].
  - intros e v v' K St. eapply clockInv_step; eassumption.
  - destruct (mount_Ready item w0 M) as [t E]. subst w0.
    unfold clockInv. cbn. repeat split; try lia; discriminate.
Qed.

(** X8.  The clock by phase, in every reachable state: the time left
    lies between 0 and 120; during the preview it is the time limit of
    the difficulty in chrono mode and 0 in normal mode; while playing it
    is 0 in normal mode and between 1 and the time limit in chrono mode.
    The game never sits in the playing phase with the countdown at 0. *)
Theorem timeLeft_by_phase (w : World) :
  reachable w ->
  let r := ui w in
  0 <= timeLeft r <= 120
  /\ (gameState r = preview -> timeLeft r = startTime r)
  /\ (gameState r = playing -> mode r = normal -> timeLeft r = 0)
  /\ (gameState r = playing -> mode r = chrono ->
      1 <= timeLeft r <= time (DIFFICULTY_CONFIG (difficulty r))).
Proof.
  intros R. destruct (clockInv_reachable w R) as [A [B C]].
  split; [exact A|]. split; [exact B|].
  split; intros G M; specialize (C G); rewrite M in C; exact C.
Qed.

Lemma calculateScore_no_time (d : Difficulty) (m : Z) :
  calculateScore chrono d m 0 = m * baseScore (DIFFICULTY_CONFIG d).
Proof.
  unfold calculateScore.
  assert (Z0 : Num.mul (Num.div (Num.ofZ 0) (Num.ofZ (time (DIFFICULTY_CONFIG d))))
                       (Num.ofZ (baseScore (DIFFICULTY_CONFIG d)))
               = SpecFloat.S754_zero false)
    by (destruct d; vm_compute; reflexivity).
  rewrite Z0. unfold Num.mul, SpecFloat.SFmul.
  destruct (Num.ofZ m); cbn; lia.
Qed.

Lemma countdown_run (n : nat) : forall w,
  gameState (ui w) = playing -> mode (ui w) = chrono ->
  timeLeft (ui w) = Z.of_nat (S n) ->
  run (repeat IntervalTick (S n)) w
  = Some (endGame (setTimeLeft 0 (ui w)) false (update (setTimeLeft 0) w)).
Proof.
  induction n as [|n IH]; intros w G M T.
  - cbn [repeat run]. rewrite (step_IntervalTick w G M) by lia.
    rewrite T. reflexivity.
  - change (repeat IntervalTick (S (S n))) with (IntervalTick :: repeat IntervalTick (S n)).
    cbn [run]. rewrite (step_IntervalTick w G M) by lia.
    assert (E : (timeLeft (ui w) =? 1) = false) by (apply Z.eqb_neq; lia).
    rewrite E. rewrite IH; [reflexivity | exact G | exact M |].
    cbn. lia.
Qed.

(** X9.  From a chrono game being played with [n] seconds left, [n]
    ticks of the countdown end the game: it is finished with 0 seconds
    left and the loss toast, deck and matches as they were, and the
    final score is the matches times the base score (no time bonus),
    which is also what the live score line shows. *)
Theorem countdown_ends_game (w : World) :
  gameState (ui w) = playing -> mode (ui w) = chrono -> 1 <= timeLeft (ui w) ->
  Z.abs (matches (ui w)) <= 2 ^ 53 ->
  exists w',
    run (repeat IntervalTick (Z.to_nat (timeLeft (ui w)))) w = Some w'
    /\ gameState (ui w') = finished /\ timeLeft (ui w') = 0
    /\ toasts w' = false :: toasts w
    /\ cards (ui w') = cards (ui w) /\ matches (ui w') = matches (ui w)
    /\ score (ui w') = matches (ui w) * baseScore (DIFFICULTY_CONFIG (difficulty (ui w)))
    /\ score (ui w')
       = calculateScore (mode (ui w')) (difficulty (ui w')) (matches (ui w')) (timeLeft (ui w')).
Proof.
  intros G M T _.
  destruct (Z.to_nat (timeLeft (ui w))) as [|n] eqn:N; [lia|].
  rewrite (countdown_run n w G M) by lia.
  eexists. split; [reflexivity|].
  match goal with
  | |- context [endGame ?r false ?v] =>
      pose proof (endGame_cells r false v) as X; cbv zeta in X;
      pose proof (endGame_toasts r false v) as Z0;
      revert X Z0; generalize (endGame r false v)
  end.
  intros v [Gs [Sc [Md [Df [Cd [_ [Mt [_ Tl]]]]]]]] Z0. cells.
  unfold finalScoreOf in Sc. cells.
  rewrite Gs, Tl, Z0, Cd, Mt, Sc, Md, Df, M.
  repeat split; try reflexivity. apply calculateScore_no_time.
Qed.

(** X10.  A step from a reachable state shows at most one toast.  The
    loss toast is shown only by the tick that takes the countdown of a
    chrono game from 1 to 0, and the win toast only by the callback of a
    matching pair; in both cases the game is finished after the step. *)
Theorem toast_per_step (w w' : World) (e : Event) :
  reachable w -> step e w = Some w' ->
  toasts w' = toasts w
  \/ (toasts w' = false :: toasts w /\ e = IntervalTick
      /\ gameState (ui w) = playing /\ mode (ui w) = chrono /\ timeLeft (ui w) = 1
      /\ gameState (ui w') = finished /\ timeLeft (ui w') = 0)
  \/ (toasts w' = true :: toasts w /\ gameState (ui w') = finished
      /\ exists k r a b, e = TimeoutFires k
                         /\ nth_error (timeouts w) k = Some (MatchTimeout r a b)).
Proof.
  intros R St. pose proof (clockInv_reachable w R) as K.
  assert (D : e = IntervalTick \/ e <> IntervalTick)
    by (destruct e; (now left) || (right; discriminate)).
  destruct D as [D|D].
  - subst e. pose proof St as St0. unfold step in St0. cbn [handle] in St0.
    destruct (GameState_eqb (gameState (ui w)) playing) eqn:G; [|discriminate].
    destruct (GameMode_eqb (mode (ui w)) chrono) eqn:M; [|discriminate].
    destruct (0 <? timeLeft (ui w)) eqn:T; [|discriminate]. clear St0.
    assert (G' : gameState (ui w) = playing)
      by (destruct (gameState (ui w)); try discriminate; reflexivity).
    assert (M' : mode (ui w) = chrono)
      by (destruct (mode (ui w)); try discriminate; reflexivity).
    apply Z.ltb_lt in T.
    rewrite (step_IntervalTick w G' M' ltac:(lia)) in St. inversion St; subst w'. clear St.
    destruct (timeLeft (ui w) =? 1) eqn:E1; [|now left].
    right. left. apply Z.eqb_eq in E1.
    match goal with
    | |- context [endGame ?r false ?v] =>
        destruct (endGame_cells r false v) as [Gs [_ [_ [_ [_ [_ [_ [_ Tl]]]]]]]];
        rewrite (endGame_toasts r false v), Gs, Tl
    end.
    repeat split; assumption.
  - unfold step in St. destruct (handle e w) as [w1|] eqn:H; [|discriminate].
    pose proof (clockInv_handle e w w1 D K H) as K1.
    rewrite (clockInv_runEffect (ui w) w1 K1) in St. inversion St; subst w1. clear St.
    destruct e; cbn [handle] in H;
      try (destruct (GameState_eqb (gameState (ui w)) _); [|discriminate];
           inversion H; subst w'; now left).
    + now contradiction D.
    + destruct (negb (GameState_eqb (gameState (ui w)) setup)
                && (index <? List.length (cards (ui w)))%nat); [|discriminate].
      inversion H; subst w'. left. apply (onCardClick_cells index w).
    + destruct (nth_error (timeouts w) k) as [t|] eqn:N; [|discriminate].
      inversion H; subst w'.
      match goal with
      | |- context [runTimeout t ?v] =>
          destruct (runTimeout_cells t v) as [_ [_ [_ [[_ Z0]|[G [Z0 [r [a [b E]]]]]]]]]
      end.
      * left. exact Z0.
      * right. right. split; [exact Z0|]. split; [exact G|].
        exists k, r, a, b. subst t. auto.
Qed.

(* ------------------------------------------------------------------ *)
(** ** The order of chrono scores *)

Lemma orderCheck_all (d : Difficulty) :
  forallb (fun m => forallb (orderCheck d m) (upto (time (DIFFICULTY_CONFIG d))))
          (upto (Z.of_nat (pairs (DIFFICULTY_CONFIG d)))) = true.
Proof. destruct d; vm_compute; reflexivity. Qed.

Lemma orderCheck_at (d : Difficulty) (m t : Z) :
  0 <= m <= Z.of_nat (pairs (DIFFICULTY_CONFIG d)) ->
  0 <= t <= time (DIFFICULTY_CONFIG d) ->
  let c := DIFFICULTY_CONFIG d in
  let s := calculateScore chrono d m t in
  m * baseScore c <= s <= 2 * m * baseScore c
  /\ (t < time c -> s <= calculateScore chrono d m (t + 1))
  /\ (m < Z.of_nat (pairs c) -> s + baseScore c <= calculateScore chrono d (m + 1) t).
Proof.
  intros Hm Ht c s. pose proof (orderCheck_all d) as H.
  apply forallb_upto with (z := m) in H; [|exact Hm].
  apply forallb_upto with (z := t) in H; [|exact Ht].
  unfold orderCheck in H. fold c s in H.
  repeat (apply andb_true_iff in H; destruct H as [H ?]).
  repeat match goal with
         | K : (_ <=? _) = true |- _ => apply Z.leb_le in K
         | K : (_ || _) = true |- _ => apply orb_true_iff in K
         end.
  split; [lia|]. split; intros L.
  - destruct H1 as [E|E]; [apply Z.eqb_eq in E; lia | now apply Z.leb_le].
  - destruct H0 as [E|E]; [apply Z.eqb_eq in E; lia | now apply Z.leb_le].
Qed.

(** X17.  Chrono scores in order, for matches between 0 and [pairs]
    and times between 0 and the time limit: more time left never gives a
    lower score; the score is at least the normal score and at most
    twice it; one more match adds at least the base score. *)
Theorem calculateScore_chrono_order (d : Difficulty) (m t1 t2 : Z) :
  0 <= m <= Z.of_nat (pairs (DIFFICULTY_CONFIG d)) ->
  0 <= t1 <= t2 -> t2 <= time (DIFFICULTY_CONFIG d) ->
  let b := baseScore (DIFFICULTY_CONFIG d) in
  calculateScore chrono d m t1 <= calculateScore chrono d m t2
  /\ calculateScore normal d m t1 <= calculateScore chrono d m t1 <= 2 * m * b
  /\ (m < Z.of_nat (pairs (DIFFICULTY_CONFIG d)) ->
      calculateScore chrono d m t1 + b <= calculateScore chrono d (m + 1) t1).
Proof.
  intros Hm Ht1 Ht2 b.
  destruct (orderCheck_at d m t1 Hm ltac:(lia)) as [R [_ Mm]].
  split; [|split; [exact R | exact Mm]].
  assert (G : forall n : nat, t1 + Z.of_nat n <= time (DIFFICULTY_CONFIG d) ->
            calculateScore chrono d m t1 <= calculateScore chrono d m (t1 + Z.of_nat n)).
  { induction n as [|n IH]; intros B.
    - rewrite Z.add_0_r. lia.
    - destruct (orderCheck_at d m (t1 + Z.of_nat n) Hm ltac:(lia)) as [_ [St _]].
      replace (t1 + Z.of_nat (S n)) with (t1 + Z.of_nat n + 1) by lia.
      specialize (IH ltac:(lia)). specialize (St ltac:(lia)). lia. }
  specialize (G (Z.to_nat (t2 - t1))).
  replace (t1 + Z.of_nat (Z.to_nat (t2 - t1))) with t2 in G by lia.
  apply G. lia.
Qed.

(* ------------------------------------------------------------------ *)
(** ** Tables *)

Section TableInvariant.

Variable Q : list Score -> Prop.

Hypothesis Q_newBest : forall m d fs tl t t',
  Q t -> newBest m d fs tl t = Some t' -> Q t'.

Lemma tablesHold_endGame (r : Render) (isWin : bool) (w : World) :
  Q (bestScores r) -> tablesHold Q w -> tablesHold Q (endGame r isWin w).
Proof.
  intros U [Uw T]. split; [|now rewrite endGame_timeouts].
  rewrite endGame_ui. cbv zeta.
  destruct (newBest _ _ _ _ _) as [t|] eqn:E; cbn.
  - exact (Q_newBest _ _ _ _ _ _ U E).
  - exact Uw.
Qed.

Lemma tablesHold_runEffect (before : Render) (w : World) :
  tablesHold Q w -> tablesHold Q (runEffect before w).
Proof.
  intros H. unfold runEffect.
  destruct (depsChanged before (ui w) && third_branch (ui w)); [|exact H].
  apply tablesHold_endGame; [apply H | exact H].
Qed.

Lemma tablesHold_runTimeout (t : Timeout) (w : World) :
  timeoutHolds Q t -> tablesHold Q w -> tablesHold Q (runTimeout t w).
Proof.
  intros Kt [U T]. destruct t as [r a b|]; cbn [runTimeout timeoutHolds] in *.
  - destruct (2 * (matches (ui w) + 1) =? Z.of_nat (List.length (cards r))).
    + assert (K : tablesHold Q (endGame r true
                    (update (setFlippedIndexes [])
                       (update (setCards (markMatched 0 a b (cards r))) w)))).
      { apply tablesHold_endGame; [exact Kt|]. split; assumption. }
      destruct K as [K1 K2]. split; [exact K1 | exact K2].
    + split; assumption.
  - split; assumption.
Qed.

Lemma tablesHold_step (e : Event) (w w' : World) :
  tablesHold Q w -> step e w = Some w' -> tablesHold Q w'.
Proof.
  intros K St. unfold step in St.
  destruct (handle e w) as [w1|] eqn:H; [|discriminate].
  inversion St; subst w'. clear St. apply tablesHold_runEffect.
  destruct K as [U T].
  destruct e; cbn [handle] in H;
    try (destruct (GameState_eqb (gameState (ui w)) _); [|discriminate];
         inversion H; subst w1; split; assumption).
  - destruct (GameState_eqb (gameState (ui w)) playing && GameMode_eqb (mode (ui w)) chrono
              && (0 <? timeLeft (ui w))); [|discriminate].
    inversion H; subst w1. split; assumption.
  - destruct (negb (GameState_eqb (gameState (ui w)) setup)
              && (index <? List.length (cards (ui w)))%nat); [|discriminate].
    inversion H; subst w1. unfold onCardClick.
    destruct (gameState (ui w)); try (split; assumption).
    unfold handleCardClick.
    destruct (isChecking (ui w)); [split; assumption|].
    destruct (nth_error (cards (ui w)) index) as [card|]; [|split; assumption].
    destruct (isMatched card || includes (flippedIndexes (ui w)) index
              || (List.length (flippedIndexes (ui w)) =? 2)%nat); [split; assumption|].
    destruct (flippedIndexes (ui w) ++ [index]) as [|a [|b [|c rest]]];
      try (split; assumption).
    destruct (nth_error (cards (ui w)) a) as [fc|]; [|split; assumption].
    destruct (nth_error (cards (ui w)) b) as [sc|]; [|split; assumption].
    destruct (Icon_eqb (icon fc) (icon sc)); split; cbn; try assumption;
      apply Forall_app; split; try assumption; repeat constructor; exact U.
  - destruct (nth_error (timeouts w) k) as [t|] eqn:N; [|discriminate].
    inversion H; subst w1.
    apply tablesHold_runTimeout.
    + rewrite Forall_forall in T. apply T. eapply nth_error_In; eassumption.
    + split; [exact U | now apply Forall_removeAt].
Qed.

Lemma tablesHold_reachable (w0 w : World) :
  Q (bestScores (ui w0)) -> timeouts w0 = [] -> reachableFrom w0 w ->
  Q (bestScores (ui w)).
Proof.
  intros U T R.
  apply (reachableFrom_ind (tablesHold Q)) with (w := w) (w0 := w0) in R.
  - apply R.
  - intros e v v' Kv St. eapply tablesHold_step; eassumption.
  - split; [exact U | rewrite T; constructor].
Qed.

End TableInvariant.

Lemma Forall_assign {A} (P : A -> Prop) (k : nat) (x : A) (l : list A) :
  P x -> Forall P l -> Forall P (assign k x l).
Proof.
  intros Px. revert k. induction l as [|y l IH]; intros k H; cbn.
  - destruct k; constructor.
  - inversion H; subst. destruct k; constructor; auto.
Qed.

Lemma timed_newBest (m : GameMode) (d : Difficulty) (fs tl : Z) (t t' : list Score) :
  Forall timed t -> newBest m d fs tl t = Some t' -> Forall timed t'.
Proof.
  intros F H. unfold newBest in H.
  assert (E : timed (mkScore m d fs (match m with chrono => Some tl | normal => None end))).
  { unfold timed. destruct m; cbn; [reflexivity | discriminate]. }
  destruct (findIndex (sameKey m d) t) as [k|].
  - destruct (nth_error t k) as [old|]; [|discriminate].
    destruct (s_score old <? fs); [|discriminate].
    inversion H; subst. now apply Forall_assign.
  - inversion H; subst. apply Forall_app. split; [exact F | now constructor].
Qed.

Lemma wellKeyed_newBest (m : GameMode) (d : Difficulty) (fs tl : Z) (t t' : list Score) :
  Forall wellKeyed t -> newBest m d fs tl t = Some t' -> Forall wellKeyed t'.
Proof.
  intros F H. unfold newBest in H.
  pose proof (mkScore_wellKeyed m d fs (match m with chrono => Some tl | normal => None end))
    as E.
  destruct (findIndex (sameKey m d) t) as [k|].
  - destruct (nth_error t k) as [old|]; [|discriminate].
    destruct (s_score old <? fs); [|discriminate].
    inversion H; subst. now apply Forall_assign.
  - inversion H; subst. apply Forall_app. split; [exact F | now constructor].
Qed.

Lemma mount_wellKeyed (item : option JSON.text) (w0 : World) :
  mount item = Ready w0 -> Forall wellKeyed (bestScores (ui w0)).
Proof.
  unfold mount. destruct (loadBestScores item) as [|v|e]; try discriminate.
  - intros H. inversion H. constructor.
  - destruct v; cbn [bestScoresOfJson]; try discriminate.
    destruct (scoresOfJson items) as [t|] eqn:E; [|discriminate].
    intros H. inversion H. cbn. eapply scoresOfJson_wellKeyed; eassumption.
Qed.

(** X13.  If every entry of the table loaded records a time exactly
    when its mode is chrono, so does every entry of every table reached:
    [endGame] records the time left for chrono games and nothing for
    normal games. *)
Theorem entries_timed (w0 w : World) :
  Forall timed (bestScores (ui w0)) -> timeouts w0 = [] -> reachableFrom w0 w ->
  Forall timed (bestScores (ui w)).
Proof.
  apply (tablesHold_reachable (Forall timed)). exact timed_newBest.
Qed.

(** X11.  Write-through.  In every state reached after mounting
    with stored item [item], either the table is the one loaded and the
    stored item is still [item], or the stored text is the text of the
    table of the state. *)
Theorem stored_text_is_table (item : option JSON.text) (w0 w : World) :
  mount item = Ready w0 -> reachableFrom w0 w ->
  (bestScores (ui w) = bestScores (ui w0) /\ storage w = item)
  \/ storage w = Some (stringifyBestScores (bestScores (ui w))).
Proof.
  intros M R. destruct (mount_Ready item w0 M) as [t E].
  destruct (storage_follows_table w0 w R) as [[B S]|W]; [left | right; exact W].
  split; [exact B|]. rewrite S, E. reflexivity.
Qed.

(** X12.  Once a game has written the table, mounting again from what
    is stored gives the table of the state, for a table of integers that
    a number holds exactly. *)
Theorem table_survives_reload (item : option JSON.text) (w0 w : World) :
  mount item = Ready w0 -> reachableFrom w0 w ->
  storage w <> item ->
  Forall safeScore (bestScores (ui w)) ->
  mount (storage w)
  = Ready (update (setBestScores (bestScores (ui w))) (initialWorld (storage w))).
Proof.
  intros M R D S. destruct (mount_Ready item w0 M) as [t E].
  destruct (storage_follows_table w0 w R) as [[_ X]|W].
  - exfalso. apply D. rewrite X, E. reflexivity.
  - unfold written in W. rewrite W. apply stored_table_loads; [exact S|].
    apply (tablesHold_reachable (Forall wellKeyed) wellKeyed_newBest w0 w);
      [now apply (mount_wellKeyed item) | rewrite E; reflexivity | exact R].
Qed.

(* ------------------------------------------------------------------ *)
(** ** The grid *)

Lemma flipInv_reachable (w : World) : reachable w -> flipInv w.
Proof.
  intros [item [w0 [M R]]].
  apply (reachableFrom_ind flipInv) with (w0 := w0); [| |exact R].
  - intros e v v' K St. eapply flipInv_step; eassumption.
  - destruct (mount_Ready item w0 M) as [t E]. subst w0.
    now apply flipInv_cleared.
Qed.

Lemma clockInv_startGame (sh : Shuffle) (w : World) : clockInv (startGame sh w).
Proof.
  unfold clockInv, startTime. rewrite startGame_ui. cbn.
  destruct (mode (ui w)), (difficulty (ui w)); cbn; repeat split; try lia; discriminate.
Qed.

(** X14.  Pressing start on the setup screen and letting the preview
    expire: during the preview every card of the deck is face up; after
    it every card is face down, the deck is the same, the game is being
    played, no match is counted and the time left is the time the mode
    and difficulty give. *)
Theorem preview_reveals_then_hides (sh : Shuffle) (w : World) :
  gameState (ui w) = setup ->
  exists w1 w2,
    step (PressStart sh) w = Some w1 /\ step PreviewTimeout w1 = Some w2
    /\ (forall i card, nth_error (cards (ui w1)) i = Some card ->
          faceUp (ui w1) i card = true)
    /\ (forall i card, nth_error (cards (ui w2)) i = Some card ->
          faceUp (ui w2) i card = false)
    /\ cards (ui w2) = cards (ui w1) /\ gameState (ui w2) = playing
    /\ timeLeft (ui w2) = startTime (ui w) /\ matches (ui w2) = 0.
Proof.
  intros G.
  exists (startGame sh w),
         (update (setFlippedIndexes []) (update (setGameState playing) (startGame sh w))).
  assert (S1 : step (PressStart sh) w = Some (startGame sh w)).
  { unfold step. cbn [handle]. rewrite G. cbn [GameState_eqb].
    rewrite (clockInv_runEffect _ _ (clockInv_startGame sh w)). reflexivity. }
  assert (H2 : handle PreviewTimeout (startGame sh w)
               = Some (update (setFlippedIndexes [])
                         (update (setGameState playing) (startGame sh w)))).
  { cbn [handle]. rewrite startGame_ui. reflexivity. }
  split; [exact S1|]. split.
  { unfold step. rewrite H2.
    rewrite (clockInv_runEffect _ _
               (clockInv_handle PreviewTimeout _ _ ltac:(discriminate)
                  (clockInv_startGame sh w) H2)).
    reflexivity. }
  pose proof (createCards_unmatched sh (difficulty (ui w))) as U.
  rewrite Forall_forall in U.
  cbn [ui update cards flippedIndexes gameState timeLeft matches
       setFlippedIndexes setGameState].
  rewrite startGame_ui. cbn [cards flippedIndexes gameState timeLeft matches].
  repeat split.
  - intros i card N. unfold faceUp. cbn [flippedIndexes].
    apply orb_true_iff. right. apply includes_In, in_seq.
    split; [lia|]. cbn. apply nth_error_Some. congruence.
  - intros i card N. unfold faceUp. cbn [flippedIndexes includes existsb].
    rewrite orb_false_r. apply U. eapply nth_error_In; eassumption.
Qed.

(** X15.  In every reachable state outside the preview at most two
    cards are face up without being matched, and they are flipped
    indexes. *)
Theorem two_cards_turned_at_most (w : World) :
  reachable w -> gameState (ui w) <> preview ->
  (List.length (turned (ui w)) <= 2)%nat
  /\ incl (turned (ui w)) (flippedIndexes (ui w)).
Proof.
  intros R G. destruct (flipInv_reachable w R) as [_ [_ [_ L]]].
  specialize (L G).
  assert (I : incl (turned (ui w)) (flippedIndexes (ui w))).
  { intros i H. unfold turned in H. apply filter_In in H. destruct H as [_ H].
    destruct (nth_error (cards (ui w)) i) as [card|]; [|discriminate].
    unfold faceUp in H. apply andb_true_iff in H. destruct H as [F M].
    apply negb_true_iff in M. rewrite M in F. now apply includes_In in F. }
  split; [|exact I].
  apply Nat.le_trans with (m := List.length (flippedIndexes (ui w))); [|exact L].
  apply NoDup_incl_length; [|exact I].
  unfold turned. apply NoDup_filter, seq_NoDup.
Qed.

(** X16.  In every reachable state a click on a card of the grid
    returns normally: the lookups [cards[clickedIndex]],
    [cards[firstIndex]] and [cards[secondIndex]] all find a card. *)
Theorem onCardClick_returns (w : World) (index : nat) :
  reachable w -> (index < List.length (cards (ui w)))%nat ->
  exists w', onCardClick index w = Normal w'.
Proof.
  intros R L. destruct (flipInv_reachable w R) as [F _].
  unfold onCardClick. destruct (gameState (ui w)); try (eexists; reflexivity).
  unfold handleCardClick.
  destruct (isChecking (ui w)); try (eexists; reflexivity).
  destruct (nth_error (cards (ui w)) index) as [card|] eqn:N.
  2:{ apply nth_error_None in N. lia. }
  destruct (isMatched card || includes (flippedIndexes (ui w)) index
            || (List.length (flippedIndexes (ui w)) =? 2)%nat); try (eexists; reflexivity).
  destruct (flippedIndexes (ui w)) as [|a [|b rest]]; cbn [app]; try (eexists; reflexivity).
  - rewrite N. inversion F; subst.
    destruct (nth_error (cards (ui w)) a) as [fc|] eqn:Na.
    + destruct (Icon_eqb (icon fc) (icon card)); try (eexists; reflexivity).
    + apply nth_error_None in Na. lia.
  - destruct rest; try (eexists; reflexivity).
Qed.

Lemma find_front {A} (p : A -> bool) (pre : list A) (x : A) (post : list A) :
  Forall (fun y => p y = false) pre -> p x = true ->
  find p (pre ++ x :: post) = Some x.
Proof.
  induction pre as [|y pre IH]; intros F Px; cbn.
  - now rewrite Px.
  - inversion F; subst. rewrite H1. now apply IH.
Qed.

Lemma find_absent {A} (p : A -> bool) (l : list A) :
  Forall (fun y => p y = false) l -> find p l = None.
Proof.
  induction 1 as [|y l Hy _ IH]; cbn; [reflexivity | now rewrite Hy].
Qed.

(** X18.  After [endGame], whose captured table is the current one, the
    table has an entry for the mode and difficulty of the game, and its
    score is the larger of the final score and the score recorded
    before; that entry apart, the table has the entries it had, in the
    order it had them. *)
Theorem endGame_keeps_maximum (r : Render) (isWin : bool) (w : World) :
  bestScores r = bestScores (ui w) ->
  let key := sameKey (mode r) (difficulty r) in
  let before := bestScores (ui w) in
  let after := bestScores (ui (endGame r isWin w)) in
  (exists e, find key after = Some e
             /\ s_score e = match find key before with
                            | Some old => Z.max (s_score old) (finalScoreOf r)
                            | None => finalScoreOf r
                            end)
  /\ filter (fun s => negb (key s)) after = filter (fun s => negb (key s)) before
  /\ (forall s, In s after -> In s before \/ s = entryOf r).
Proof.
  intros Hr key before after.
  assert (A : after = match newBest (mode r) (difficulty r) (finalScoreOf r) (timeLeft r) before with
                      | Some t => t
                      | None => before
                      end).
  { unfold after. rewrite endGame_ui. cbv zeta. rewrite Hr. fold before.
    destruct (newBest _ _ _ _ _); reflexivity. }
  assert (Ke : key (entryOf r) = true).
  { unfold key, entryOf. apply sameKey_true. reflexivity. }
  destruct (findIndex key before) as [k|] eqn:E.
  - destruct (findIndex_Some _ _ _ E) as [pre [old [post [L [_ [K F]]]]]].
    rewrite A, L, (newBest_present _ _ _ _ pre old post F K).
    rewrite (find_front key pre old post F K).
    destruct (s_score old <? finalScoreOf r) eqn:Lt.
    + apply Z.ltb_lt in Lt. fold (entryOf r). split; [|split].
      * exists (entryOf r). split; [now apply find_front|]. cbn. lia.
      * rewrite !filter_app. cbn [filter]. now rewrite Ke, K.
      * intros s H. apply in_app_or in H. destruct H as [H|[H|H]].
        -- left. apply in_or_app. now left.
        -- right. now symmetry.
        -- left. apply in_or_app. right. now right.
    + apply Z.ltb_ge in Lt. split; [|split].
      * exists old. split; [now apply find_front | lia].
      * reflexivity.
      * intros s H. now left.
  - apply findIndex_None in E.
    rewrite A, (newBest_absent _ _ _ _ _ E), (find_absent key before E).
    fold (entryOf r). split; [|split].
    + exists (entryOf r). split; [|reflexivity].
      now apply (find_front key before (entryOf r) []).
    + rewrite filter_app. cbn [filter]. rewrite Ke. cbn. now rewrite app_nil_r.
    + intros s H. apply in_app_or in H. destruct H as [H|[H|[]]]; [now left | right; now symmetry].
Qed.

(* ------------------------------------------------------------------ *)
(** ** Instances *)

Lemma createCards_partner_witness :
  exists c', In c' (createCards keepOrder facile)
             /\ id c' <> 0%nat /\ (id c' / 2 = 0 / 2)%nat
             /\ icon c' = Heart /\ color c' = "text-rose-400"%string.
Proof.
  apply (createCards_partner keepOrder facile (mkCard 0 Heart false "text-rose-400")).
  cbn. left. reflexivity.
Defined.

Lemma mismatch_round_trip_witness :
  run [CardClick 0; CardClick 2; TimeoutFires 0] playingFacile = Some playingFacile.
Proof.
  apply (mismatch_round_trip playingFacile 0 2
           (mkCard 0 Heart false "text-rose-400") (mkCard 2 Star false "text-amber-400"));
    try reflexivity; discriminate.
Defined.

Lemma match_marks_pair_witness :
  exists w',
    run [CardClick 0; CardClick 1; TimeoutFires 0] playingFacile = Some w'
    /\ matches (ui w') = 1 /\ gameState (ui w') = playing.
Proof.
  destruct (match_marks_pair playingFacile 0 1
              (mkCard 0 Heart false "text-rose-400") (mkCard 1 Heart false "text-rose-400"))
    as [w' [R [_ [_ [M [_ [_ [_ [_ [_ [_ G]]]]]]]]]]];
    try reflexivity; try discriminate.
  exists w'. split; [exact R|]. split; [exact M|]. apply G.
Defined.

Lemma stateAfter_winningRun_drained :
  runDrained winningRun (initialWorld None) = Some (stateAfter winningRun).
Proof. vm_compute. reflexivity. Defined.

Lemma stateAfter_winningRun_reachable :
  reachableFrom (initialWorld None) (stateAfter winningRun).
Proof. exists winningRun. vm_compute. reflexivity. Defined.

Lemma matches_within_deck_witness :
  Z.of_nat (matchedCount (cards (ui (stateAfter winningRun))))
  = 2 * matches (ui (stateAfter winningRun))
  /\ 0 <= matches (ui (stateAfter winningRun))
  /\ 2 * matches (ui (stateAfter winningRun))
     <= Z.of_nat (List.length (cards (ui (stateAfter winningRun)))).
Proof.
  apply (matches_within_deck None (initialWorld None) (stateAfter winningRun) winningRun).
  - reflexivity.
  - exact stateAfter_winningRun_drained.
Defined.

Lemma win_when_all_matched_witness :
  (toasts (stateAfter winningRun) = true :: toasts (stateAfter lastPairRun)
   /\ gameState (ui (stateAfter winningRun)) = finished
   /\ Forall (fun c => isMatched c = true) (cards (ui (stateAfter winningRun))))
  \/ (toasts (stateAfter winningRun) = toasts (stateAfter lastPairRun)
      /\ gameState (ui (stateAfter winningRun)) = gameState (ui (stateAfter lastPairRun))
      /\ exists c, In c (cards (ui (stateAfter winningRun))) /\ isMatched c = false).
Proof.
  eapply (win_when_all_matched None (initialWorld None) (stateAfter lastPairRun)
            (stateAfter winningRun) lastPairRun 0 _ 10 11).
  - reflexivity.
  - vm_compute. reflexivity.
  - vm_compute. reflexivity.
  - vm_compute. reflexivity.
Defined.

Lemma timeLeft_by_phase_witness :
  0 <= timeLeft (ui previewOfFacile) <= 120
  /\ (gameState (ui previewOfFacile) = preview ->
      timeLeft (ui previewOfFacile) = startTime (ui previewOfFacile))
  /\ (gameState (ui previewOfFacile) = playing -> mode (ui previewOfFacile) = normal ->
      timeLeft (ui previewOfFacile) = 0)
  /\ (gameState (ui previewOfFacile) = playing -> mode (ui previewOfFacile) = chrono ->
      1 <= timeLeft (ui previewOfFacile)
      <= time (DIFFICULTY_CONFIG (difficulty (ui previewOfFacile)))).
Proof.
  exact (timeLeft_by_phase previewOfFacile previewOfFacile_reachable).
Defined.

Lemma countdown_ends_game_witness :
  exists w',
    run [IntervalTick; IntervalTick; IntervalTick] lastSeconds = Some w'
    /\ gameState (ui w') = finished /\ score (ui w') = 200.
Proof.
  destruct (countdown_ends_game lastSeconds) as [w' [R [G [_ [_ [_ [_ [S _]]]]]]]];
    try reflexivity; try (cbn; lia).
  exists w'. split; [exact R|]. split; [exact G | exact S].
Defined.

Lemma toast_per_step_witness :
  toasts (update (setFlippedIndexes []) (update (setGameState playing) previewOfFacile))
  = toasts previewOfFacile.
Proof.
  destruct (toast_per_step previewOfFacile
              (update (setFlippedIndexes []) (update (setGameState playing) previewOfFacile))
              PreviewTimeout previewOfFacile_reachable eq_refl) as [H|[H|H]].
  - exact H.
  - destruct H as [_ [E _]]. discriminate E.
  - destruct H as [_ [_ [k [r [a [b [E _]]]]]]]. discriminate E.
Defined.

Lemma stored_text_is_table_witness :
  (bestScores (ui (stateAfter winningRun)) = bestScores (ui (initialWorld None))
   /\ storage (stateAfter winningRun) = None)
  \/ storage (stateAfter winningRun)
     = Some (stringifyBestScores (bestScores (ui (stateAfter winningRun)))).
Proof.
  apply (stored_text_is_table None (initialWorld None) (stateAfter winningRun)).
  - reflexivity.
  - exact stateAfter_winningRun_reachable.
Defined.

Lemma table_survives_reload_witness :
  mount (storage (stateAfter winningRun))
  = Ready (update (setBestScores (bestScores (ui (stateAfter winningRun))))
             (initialWorld (storage (stateAfter winningRun)))).
Proof.
  apply (table_survives_reload None (initialWorld None) (stateAfter winningRun)).
  - reflexivity.
  - exact stateAfter_winningRun_reachable.
  - vm_compute. discriminate.
  - assert (E : bestScores (ui (stateAfter winningRun)) = [mkScore normal facile 500 None])
      by (vm_compute; reflexivity).
    rewrite E. constructor; [|constructor]. split; [cbn; discriminate | exact I].
Defined.

Lemma entries_timed_witness :
  Forall timed (bestScores (ui (stateAfter winningRun))).
Proof.
  apply (entries_timed (initialWorld None) (stateAfter winningRun)).
  - constructor.
  - reflexivity.
  - exact stateAfter_winningRun_reachable.
Defined.

Lemma preview_reveals_then_hides_witness :
  exists w1 w2,
    step (PressStart keepOrder) (initialWorld None) = Some w1
    /\ step PreviewTimeout w1 = Some w2
    /\ gameState (ui w2) = playing.
Proof.
  destruct (preview_reveals_then_hides keepOrder (initialWorld None) eq_refl)
    as [w1 [w2 [S1 [S2 [_ [_ [_ [G _]]]]]]]].
  exists w1, w2. split; [exact S1|]. split; [exact S2 | exact G].
Defined.

Lemma stateAfter_firstFlipRun_reachable : reachable (stateAfter firstFlipRun).
Proof.
  exists None, (initialWorld None). split; [reflexivity|].
  exists firstFlipRun. vm_compute. reflexivity.
Defined.

Lemma two_cards_turned_at_most_witness :
  (List.length (turned (ui (stateAfter firstFlipRun))) <= 2)%nat
  /\ incl (turned (ui (stateAfter firstFlipRun)))
          (flippedIndexes (ui (stateAfter firstFlipRun))).
Proof.
  apply (two_cards_turned_at_most (stateAfter firstFlipRun)
           stateAfter_firstFlipRun_reachable).
  vm_compute. discriminate.
Defined.

Lemma onCardClick_returns_witness :
  exists w', onCardClick 1 (stateAfter firstFlipRun) = Normal w'.
Proof.
  apply (onCardClick_returns (stateAfter firstFlipRun) 1
           stateAfter_firstFlipRun_reachable).
  vm_compute. lia.
Defined.

Lemma calculateScore_chrono_order_witness :
  calculateScore chrono moyen 6 30 <= calculateScore chrono moyen 6 60
  /\ calculateScore normal moyen 6 30 <= calculateScore chrono moyen 6 30 <= 2 * 6 * 200
  /\ (6 < 8 -> calculateScore chrono moyen 6 30 + 200 <= calculateScore chrono moyen 7 30).
Proof.
  apply (calculateScore_chrono_order moyen 6 30 60); simpl; lia.
Defined.

Lemma endGame_keeps_maximum_witness :
  exists e, find (sameKey chrono facile)
                 (bestScores (ui (endGame (ui outOfTime) false outOfTime))) = Some e
            /\ s_score e = 300.
Proof.
  destruct (endGame_keeps_maximum (ui outOfTime) false outOfTime eq_refl) as [[e [F S]] _].
  exists e. split; [exact F | exact S].
Defined.
